(** * SPL regex portability audit: a shallow embedding and its properties

    The development follows [spl_regex_portability_audit.py]: the quoted
    string scanner, the [rex] / [regex] command extractors, the feature
    detectors with the two incompatibility tables, the per-file analysis
    and the command line entry point.

    Conventions of the embedding.
    - A Python [str] is a [list ascii]; a character is a code point below
      256 and the character classes of Python ([str.isspace], the [\w],
      [\s] and [\d] of the [re] module, [str.lower]) are transcribed for
      that range.  Feature and engine names, which the source uses as
      dictionary keys, are [string]s.
    - An index is a [nat]: the source only ever builds offsets by counting
      up from [0] or from the end of a match.
    - [s[i]] is a partial operation ([getc]); reading outside the string
      raises [IndexError] as in Python.  Every function that indexes, or
      raises explicitly, lives in the error monad [res].
    - A [while] loop is a [Fixpoint] on a fuel argument that is only
      consumed when the loop condition holds; running out of fuel is the
      distinguished outcome [Diverged], never confused with a result of
      the program. *)

From Stdlib Require Import Ascii String NArith.
From stdpp Require Import gmap strings list fin_maps sorting.

Open Scope list_scope.

(** ** Errors *)

Inductive exn : Type :=
  | IndexError
  | ValueError (msg : string)
  | OSError
  | Diverged.

Inductive res (A : Type) : Type :=
  | Ok (a : A)
  | Raise (e : exn).
Arguments Ok {A} a.
Arguments Raise {A} e.

#[global] Instance res_ret : MRet res := fun _ a => Ok a.
#[global] Instance res_bind : MBind res := fun _ _ f m =>
  match m with
  | Ok a => f a
  | Raise e => Raise e
  end.

(** ** Characters and strings *)

Definition text := list ascii.

Definition str (s : string) : text := list_ascii_of_string s.

Definition dquote : ascii := "034"%char.
Definition squote : ascii := "039"%char.
Definition backslash : ascii := "092"%char.
Definition pipe : ascii := "124"%char.
Definition newline : ascii := "010"%char.

Definition code (c : ascii) : N := N_of_ascii c.

Definition in_range (lo hi : N) (c : ascii) : bool :=
  ((lo <=? code c) && (code c <=? hi))%N.

(** [str.isspace] and the [\s] of [re], for code points below 256. *)
Definition isspace (c : ascii) : bool :=
  in_range 9 13 c || in_range 28 32 c || (code c =? 133)%N || (code c =? 160)%N.

(** The [\d] of [re]: decimal digits. *)
Definition is_digit (c : ascii) : bool := in_range 48 57 c.

(** The [\w] of [re]: alphanumeric code points and the underscore. *)
Definition is_word (c : ascii) : bool :=
  in_range 48 57 c || in_range 65 90 c || (code c =? 95)%N || in_range 97 122 c
  || (code c =? 170)%N || in_range 178 179 c || (code c =? 181)%N
  || in_range 185 186 c || in_range 188 190 c
  || in_range 192 214 c || in_range 216 246 c || in_range 248 255 c.

(** [str.lower] on one character. *)
Definition lower_char (c : ascii) : ascii :=
  if in_range 65 90 c || in_range 192 214 c || in_range 216 222 c
  then ascii_of_N (code c + 32) else c.

Definition upper_ascii (c : ascii) : ascii :=
  if in_range 97 122 c then ascii_of_N (code c - 32) else c.

Definition lower (s : text) : text := map lower_char s.

Definition text_eqb (a b : text) : bool := bool_decide (a = b).

(** [s[a:b]] for [0 <= a] and [0 <= b]. *)
Definition slice (s : text) (a b : nat) : text := take (b - a) (drop a s).

(** [s[i]]. *)
Definition getc (s : text) (i : nat) : res ascii :=
  match s !! i with
  | Some c => Ok c
  | None => Raise IndexError
  end.

Definition is_quote (c : ascii) : bool := (c =? squote)%char || (c =? dquote)%char.

(** ** Helpers to parse quoted strings *)

(** The loop of the doubled double-quote case: [while i < n - 1]. *)
Fixpoint scan_doubled (fuel : nat) (s : text) (start i : nat)
  : res (option (nat * text)) :=
  if i <? length s - 1 then
    match fuel with
    | 0 => Raise Diverged
    | S fuel' =>
        a ← getc s i;
        closing ← (if (a =? dquote)%char
                   then b ← getc s (i + 1); Ok (b =? dquote)%char
                   else Ok false);
        if closing : bool then Ok (Some (i + 2, slice s start i))
        else scan_doubled fuel' s start (i + 1)
    end
  else Ok None.

(** The loop of the standard case: [while i < n]. *)
Fixpoint scan_standard (fuel : nat) (s : text) (quote : ascii) (start i : nat)
  : res (option (nat * text)) :=
  if i <? length s then
    match fuel with
    | 0 => Raise Diverged
    | S fuel' =>
        c ← getc s i;
        if (c =? backslash)%char then scan_standard fuel' s quote start (i + 2)
        else if (c =? quote)%char then Ok (Some (i + 1, slice s start i))
        else scan_standard fuel' s quote start (i + 1)
    end
  else Ok None.

Definition _scan_quoted (s : text) (i : nat) : res (option (nat * text)) :=
  let n := length s in
  if n <=? i then Ok None
  else
    ch ← getc s i;
    if negb (is_quote ch) then Ok None
    else
      doubled ← (if (ch =? dquote)%char && (i + 1 <? n)
                 then c ← getc s (i + 1); Ok (c =? dquote)%char
                 else Ok false);
      if doubled : bool then scan_doubled n s (i + 2) (i + 2)
      else scan_standard n s ch (i + 1) (i + 1).

(** The loop of [_find_all_quoted]: [while i < n]. *)
Fixpoint find_all_quoted_loop (fuel : nat) (s : text) (i : nat)
  (out : list (nat * nat * text)) : res (list (nat * nat * text)) :=
  if i <? length s then
    match fuel with
    | 0 => Raise Diverged
    | S fuel' =>
        c ← getc s i;
        if is_quote c then
          r ← _scan_quoted s i;
          match r with
          | Some (e, content) =>
              find_all_quoted_loop fuel' s e (out ++ [(i, e, content)])
          | None => find_all_quoted_loop fuel' s (i + 1) out
          end
        else find_all_quoted_loop fuel' s (i + 1) out
    end
  else Ok out.

Definition _find_all_quoted (s : text) : res (list (nat * nat * text)) :=
  find_all_quoted_loop (length s) s 0 [].

(** ** Regular expressions

    The fragment of Python's [re] that the program's patterns are written
    in, with a backtracking matcher: [exec] lists the states a pattern can
    end in from a given state, in the order in which [re] tries them, so
    that the head of the list is the match [re] reports. *)

Module Re.

Inductive cclass : Type :=
  | Ch (c : ascii)          (* a character *)
  | Rng (lo hi : ascii)     (* lo-hi *)
  | Word                    (* \w *)
  | Digit                   (* \d *)
  | Space.                  (* \s *)

Inductive regex : Type :=
  | Eps
  | Chr (c : ascii)                          (* a literal character *)
  | Set_ (neg : bool) (cs : list cclass)     (* [...], [^...], \w, \d, \s *)
  | Seq (r1 r2 : regex)
  | Alt (r1 r2 : regex)                      (* r1|r2 *)
  | Opt (r : regex)                          (* (?:r)? *)
  | Star (neg : bool) (cs : list cclass)     (* [...]* *)
  | Plus (neg : bool) (cs : list cclass)     (* [...]+ *)
  | Group (r : regex)                        (* (r), the capturing group *)
  | NotBehind (cs : list cclass)             (* (?<![...]) *)
  | NotAhead (cs : list cclass)              (* (?![...]) *)
  | WordB                                    (* \b *)
  | Bol.                                     (* ^ *)

(** A literal string. *)
Definition Lit (s : string) : regex :=
  foldr (fun c r => Seq (Chr c) r) Eps (list_ascii_of_string s).

(** A sequence. *)
Definition Cat (rs : list regex) : regex := foldr Seq Eps rs.

(** An alternation of at least one branch. *)
Fixpoint Alts (r : regex) (rs : list regex) : regex :=
  match rs with
  | [] => r
  | r' :: rs' => Alt r (Alts r' rs')
  end.

Definition class_has (c : cclass) (x : ascii) : bool :=
  match c with
  | Ch a => (x =? a)%char
  | Rng lo hi => in_range (code lo) (code hi) x
  | Word => is_word x
  | Digit => is_digit x
  | Space => isspace x
  end.

(** Membership in a set; [ic] is the IGNORECASE flag. *)
Definition set_has (ic neg : bool) (cs : list cclass) (x : ascii) : bool :=
  xorb neg
    (existsb (fun c => class_has c x
                       || (ic && (class_has c (lower_char x)
                                  || class_has c (upper_ascii x)))) cs).

Definition chr_has (ic : bool) (c x : ascii) : bool :=
  if ic then (lower_char x =? lower_char c)%char else (x =? c)%char.

(** Length of the longest prefix of [l] whose characters satisfy [p]. *)
Fixpoint run_len (p : ascii -> bool) (l : text) : nat :=
  match l with
  | c :: l' => if p c then S (run_len p l') else 0
  | [] => 0
  end.

(** A matcher state: the current offset, and the span of the capturing
    group once it has been closed. *)
Definition mstate : Type := nat * option (nat * nat).

(** Greedy repetition of a one-character set from offset [pos], at least
    [lo] times: the longest run first, then shorter ones. *)
Definition repeat_set (ic neg : bool) (cs : list cclass) (lo : nat)
    (s : text) (st : mstate) : list mstate :=
  let k := run_len (set_has ic neg cs) (drop st.1 s) in
  (fun j => (st.1 + j, st.2)) <$> reverse (seq lo (S k - lo)).

Fixpoint exec (ic : bool) (r : regex) (s : text) (st : mstate) : list mstate :=
  match r with
  | Eps => [st]
  | Chr c =>
      match s !! st.1 with
      | Some x => if chr_has ic c x then [(S st.1, st.2)] else []
      | None => []
      end
  | Set_ neg cs =>
      match s !! st.1 with
      | Some x => if set_has ic neg cs x then [(S st.1, st.2)] else []
      | None => []
      end
  | Seq r1 r2 => st' ← exec ic r1 s st; exec ic r2 s st'
  | Alt r1 r2 => exec ic r1 s st ++ exec ic r2 s st
  | Opt r1 => exec ic r1 s st ++ [st]
  | Star neg cs => repeat_set ic neg cs 0 s st
  | Plus neg cs => repeat_set ic neg cs 1 s st
  | Group r1 => (fun st' : mstate => (st'.1, Some (st.1, st'.1))) <$> exec ic r1 s st
  | NotBehind cs =>
      match st.1 with
      | 0 => [st]
      | S p =>
          match s !! p with
          | Some x => if set_has ic false cs x then [] else [st]
          | None => [st]
          end
      end
  | NotAhead cs =>
      match s !! st.1 with
      | Some x => if set_has ic false cs x then [] else [st]
      | None => [st]
      end
  | WordB =>
      let before := match st.1 with
                    | 0 => false
                    | S p => from_option is_word false (s !! p)
                    end in
      let after := from_option is_word false (s !! st.1) in
      if xorb before after then [st] else []
  | Bol => match st.1 with 0 => [st] | S _ => [] end
  end.

(** The first offset among [starts] at which the pattern matches, with the
    state of the match. *)
Fixpoint search_from (ic : bool) (r : regex) (s : text) (starts : list nat)
  : option (nat * mstate) :=
  match starts with
  | [] => None
  | p :: ps =>
      match exec ic r s (p, None) with
      | m :: _ => Some (p, m)
      | [] => search_from ic r s ps
      end
  end.

(** [re.search]: the leftmost match. *)
Definition search (ic : bool) (r : regex) (s : text) : option (nat * mstate) :=
  search_from ic r s (seq 0 (S (length s))).

(** The successive matches, left to right, none starting inside the
    previous one. *)
Fixpoint finditer_from (ic : bool) (r : regex) (s : text) (starts : list nat)
    (from : nat) : list (nat * mstate) :=
  match starts with
  | [] => []
  | p :: ps =>
      if p <? from then finditer_from ic r s ps from
      else
        match exec ic r s (p, None) with
        | m :: _ => (p, m) :: finditer_from ic r s ps m.1
        | [] => finditer_from ic r s ps from
        end
  end.

(** [re.finditer]. *)
Definition finditer (ic : bool) (r : regex) (s : text) : list (nat * mstate) :=
  finditer_from ic r s (seq 0 (S (length s))) 0.

(** [m.start()], [m.end()] and [m.group(1)] of a match. *)
Definition m_start (m : nat * mstate) : nat := m.1.
Definition m_end (m : nat * mstate) : nat := m.2.1.
Definition group1 (s : text) (m : nat * mstate) : text :=
  match m.2.2 with
  | Some (a, b) => slice s a b
  | None => []
  end.

End Re.

Import Re.

(** ** Feature detectors *)

Definition set_of (s : string) : list cclass := Ch <$> list_ascii_of_string s.

Definition letters_ : list cclass := [Rng "A" "Z"; Rng "a" "z"; Ch "_"].
Definition _letters : list cclass := [Ch "_"; Rng "A" "Z"; Rng "a" "z"].
Definition alnum_ : list cclass := [Rng "A" "Z"; Rng "a" "z"; Rng "0" "9"; Ch "_"].

Definition DETECTORS : list (string * regex) :=
  [ ("lookahead", Alt (Lit "(?=") (Lit "(?!"));
    ("lookbehind", Alt (Lit "(?<=") (Lit "(?<!"));
    ("atomic_group", Lit "(?>");
    ("possessive_quantifier",
       Seq (NotBehind [Ch backslash]) (Alts (Lit "++") [Lit "*+"; Lit "?+"]));
    ("backtracking_control",
       Cat [Lit "(*";
            Alts (Lit "PRUNE") [Lit "SKIP"; Lit "COMMIT"; Lit "THEN"; Lit "ACCEPT"; Lit "FAIL"];
            Lit ")"]);
    ("branch_reset", Lit "(?|");
    ("recursion", Alt (Lit "(?R)") (Lit "(?0)"));
    ("subroutine_number",
       Cat [Lit "\g";
            Alt (Plus false [Digit]) (Cat [Lit "{"; Plus false [Digit]; Lit "}"])]);
    ("subroutine_name",
       Alt (Cat [Lit "\g"; Set_ false [Ch squote; Ch "{"]; Set_ false letters_;
                 Star false alnum_; Set_ false [Ch squote; Ch "}"]])
           (Cat [Lit "(?&"; Set_ false letters_; Star false alnum_; Lit ")"]));
    ("conditional", Cat [Lit "(?("; Star true [Ch ")"]; Lit ")"]);
    ("callout", Cat [Lit "(?C"; Star false [Digit]; Lit ")"]);
    ("named_backref_k", Cat [Lit "\k<"; Plus true [Ch ">"]; Lit ">"]);
    ("named_capture_angle",
       Cat [Lit "(?<"; Set_ false _letters; Star false [Word]; Lit ">"]);
    ("named_capture_single",
       Cat [Lit "(?'"; Set_ false _letters; Star false [Word]; Lit "'"]);
    ("backref_number",
       Cat [NotBehind [Ch backslash]; Chr backslash; Set_ false [Rng "1" "9"];
            Star false [Digit]]);
    ("inline_flags",
       Cat [Lit "(?"; Plus false (set_of "imsUx-");
            Opt (Seq (Chr "-") (Plus false (set_of "imsUx"))); Lit ")"]);
    ("mode_modifier",
       Cat [Lit "(*";
            Alts (Lit "UTF8") [Lit "UTF"; Lit "UCP"; Lit "NO_START_OPT";
                               Seq (Lit "BSR_") (Plus false [Rng "A" "Z"])];
            Lit ")"]) ].

(** ** Compatibility rules *)

Definition JAVA_INCOMPATIBLE : gset string :=
  list_to_set
    [ "backtracking_control"; "branch_reset"; "recursion"; "subroutine_number";
      "subroutine_name"; "conditional"; "callout"; "mode_modifier" ].

Definition LUCENE_INCOMPATIBLE : gset string :=
  list_to_set
    [ "lookahead"; "lookbehind"; "atomic_group"; "possessive_quantifier";
      "backtracking_control"; "branch_reset"; "recursion"; "subroutine_number";
      "subroutine_name"; "conditional"; "callout"; "named_backref_k";
      "named_capture_angle"; "named_capture_single"; "backref_number";
      "inline_flags"; "mode_modifier" ].

(** ** SPL command extractors *)

Definition WORD_BOUNDARY : regex :=
  Alt (Cat [NotBehind [Word]; Lit "rex"; NotAhead [Word]])
      (Cat [NotBehind [Word]; Lit "regex"; NotAhead [Word]]).

(** The matches of [_iter_command_tokens], in the order they are yielded. *)
Definition _iter_command_tokens (line : text) : list (text * nat * nat) :=
  (fun m => (lower (slice line (m_start m) (m_end m)), m_start m, m_end m))
    <$> finditer true WORD_BOUNDARY line.

(** [enumerate(l, start)]. *)
Definition enumerate {A} (start : nat) (l : list A) : list (nat * A) :=
  zip (seq start (length l)) l.

Module Item.
Record t : Type := mk {
  cmd : string;
  cmd_index_on_line : nat;
  field : text;
  pattern : text;
  pattern_index_in_cmd : nat;
}.
End Item.

(** [while i < n and line[i].isspace(): i += 1] *)
Fixpoint skip_spaces (fuel : nat) (line : text) (i : nat) : res nat :=
  if i <? length line then
    c ← getc line i;
    if isspace c then
      match fuel with
      | 0 => Raise Diverged
      | S fuel' => skip_spaces fuel' line (i + 1)
      end
    else Ok i
  else Ok i.

(** The loop skipping the argument tokens: while [i < n] and [line[i]] is not
    a quote character, with its [break] on a pipe. *)
Fixpoint skip_args (fuel : nat) (line : text) (i : nat) : res nat :=
  if i <? length line then
    c ← getc line i;
    if negb (is_quote c) then
      match fuel with
      | 0 => Raise Diverged
      | S fuel' =>
          if (c =? pipe)%char then Ok i
          else skip_args fuel' line (i + 1)
      end
    else Ok i
  else Ok i.

(** The body of the [for] loop of [extract_from_rex], for one token: the
    records it appends to [out]. *)
Definition rex_occurrence (line : text) (cmd_i : nat) (tok : text * nat * nat)
  : res (list Item.t) :=
  let '(cmd, s, e) := tok in
  if negb (text_eqb cmd (str "rex")) then Ok []
  else
    let n := length line in
    i ← skip_spaces n line e;
    i ← skip_args n line i;
    stop ← (if n <=? i then Ok true else c ← getc line i; Ok (c =? pipe)%char);
    if stop : bool then Ok []
    else
      scanned ← _scan_quoted line i;
      match scanned with
      | None => Ok []
      | Some (_, content) =>
          Ok [ {| Item.cmd := "rex"; Item.cmd_index_on_line := cmd_i;
                  Item.field := []; Item.pattern := content;
                  Item.pattern_index_in_cmd := 1 |} ]
      end.

Fixpoint rex_loop (line : text) (toks : list (nat * (text * nat * nat)))
    (out : list Item.t) : res (list Item.t) :=
  match toks with
  | [] => Ok out
  | (cmd_i, tok) :: toks' =>
      items ← rex_occurrence line cmd_i tok;
      rex_loop line toks' (out ++ items)
  end.

Definition extract_from_rex (line : text) : res (list Item.t) :=
  rex_loop line (enumerate 1 (_iter_command_tokens line)) [].

Definition REGEX_CMD : regex := Cat [NotBehind [Word]; Lit "regex"; NotAhead [Word]].

Definition FIELD_ASSIGN : regex :=
  Cat [WordB; Lit "field"; Star false [Space]; Chr "="; Star false [Space];
       Group (Plus true [Space; Ch "="; Ch pipe])].

Definition LEAD_ASSIGN : regex :=
  Cat [Alt Bol (Set_ false [Space]); Group (Plus false [Word; Ch "."; Ch "-"]);
       Star false [Space]; Chr "="].

(** [s.find(c, start)]. *)
Definition find_char (s : text) (c : ascii) (start : nat) : option nat :=
  (fun k => start + k.1) <$> list_find (fun x => x = c) (drop start s).

(** The best-effort field extraction in the body of a [regex] command. *)
Definition regex_field (body : text) : text :=
  match search true FIELD_ASSIGN body with
  | Some m_field => group1 body m_field
  | None =>
      match search false LEAD_ASSIGN body with
      | Some lead =>
          if negb (text_eqb (lower (group1 body lead)) (str "field"))
          then group1 body lead else []
      | None => []
      end
  end.

(** The [while True] loop of [extract_from_regex]. *)
Fixpoint regex_loop (fuel : nat) (line : text) (pos cmd_index : nat)
    (out : list Item.t) : res (list Item.t) :=
  match search true REGEX_CMD (drop pos line) with
  | None => Ok out
  | Some m =>
      match fuel with
      | 0 => Raise Diverged
      | S fuel' =>
          let e := pos + m_end m in
          let cmd_index := cmd_index + 1 in
          let body := match find_char line pipe e with
                      | Some end_ => slice line e end_
                      | None => drop e line
                      end in
          let field := regex_field body in
          quotes ← _find_all_quoted body;
          let out := out ++
            ((fun q : nat * (nat * nat * text) =>
                {| Item.cmd := "regex"; Item.cmd_index_on_line := cmd_index;
                   Item.field := field; Item.pattern := q.2.2;
                   Item.pattern_index_in_cmd := q.1 |})
               <$> enumerate 1 quotes) in
          regex_loop fuel' line e cmd_index out
      end
  end.

Definition extract_from_regex (line : text) : res (list Item.t) :=
  regex_loop (length line) line 0 0 [].

(** ** Analysis *)

Definition detect_features (pattern : text) : list string :=
  (filter (fun d : string * regex => is_Some (search false d.2 pattern)) DETECTORS).*1.

Fixpoint insert_sorted (x : string) (l : list string) : list string :=
  match l with
  | [] => [x]
  | y :: l' => if String.leb x y then x :: l else y :: insert_sorted x l'
  end.

(** [sorted] on strings: the ascending rearrangement of the list. *)
Definition sorted (l : list string) : list string := foldr insert_sorted [] l.

Definition incompatible_for (engine : string) (features : list string)
  : res (bool * list string) :=
  if String.eqb engine "java" then
    let bad := sorted (filter (fun f => f ∈ JAVA_INCOMPATIBLE) features) in
    Ok (0 <? length bad, bad)
  else if String.eqb engine "lucene" then
    let bad := sorted (filter (fun f => f ∈ LUCENE_INCOMPATIBLE) features) in
    Ok (0 <? length bad, bad)
  else Raise (ValueError ("Unknown engine: " ++ engine)).

Module Row.
Record t : Type := mk {
  line_number : nat;
  command : string;
  cmd_index_on_line : nat;
  pattern_index_in_cmd : nat;
  field : text;
  pattern : text;
  features_detected : string;
  java_incompatible : bool;
  java_incompat_features : string;
  lucene_incompatible : bool;
  lucene_incompat_features : string;
  line : text;
}.
End Row.

Module Totals.
Record t : Type := mk {
  lines : nat;
  rex_commands : nat;
  regex_commands : nat;
  total_patterns : nat;
  java_incompatible_patterns : nat;
  lucene_incompatible_patterns : nat;
  java_feature_counts : gmap string nat;
  lucene_feature_counts : gmap string nat;
}.

Definition init : t := mk 0 0 0 0 0 0 ∅ ∅.

Definition add_lines (k : nat) (x : t) : t :=
  mk (lines x + k) (rex_commands x) (regex_commands x) (total_patterns x)
     (java_incompatible_patterns x) (lucene_incompatible_patterns x)
     (java_feature_counts x) (lucene_feature_counts x).

Definition add_rex_commands (k : nat) (x : t) : t :=
  mk (lines x) (rex_commands x + k) (regex_commands x) (total_patterns x)
     (java_incompatible_patterns x) (lucene_incompatible_patterns x)
     (java_feature_counts x) (lucene_feature_counts x).

Definition add_regex_commands (k : nat) (x : t) : t :=
  mk (lines x) (rex_commands x) (regex_commands x + k) (total_patterns x)
     (java_incompatible_patterns x) (lucene_incompatible_patterns x)
     (java_feature_counts x) (lucene_feature_counts x).

Definition add_total_patterns (k : nat) (x : t) : t :=
  mk (lines x) (rex_commands x) (regex_commands x) (total_patterns x + k)
     (java_incompatible_patterns x) (lucene_incompatible_patterns x)
     (java_feature_counts x) (lucene_feature_counts x).

Definition set_java (k : nat) (counts : gmap string nat) (x : t) : t :=
  mk (lines x) (rex_commands x) (regex_commands x) (total_patterns x)
     k (lucene_incompatible_patterns x) counts (lucene_feature_counts x).

Definition set_lucene (k : nat) (counts : gmap string nat) (x : t) : t :=
  mk (lines x) (rex_commands x) (regex_commands x) (total_patterns x)
     (java_incompatible_patterns x) k (java_feature_counts x) counts.
End Totals.

(** [counts[ftr] = counts.get(ftr, 0) + 1] *)
Definition bump (counts : gmap string nat) (ftr : string) : gmap string nat :=
  <[ftr := default 0 (counts !! ftr) + 1]> counts.

(** [s.rstrip(c)] for a one-character [c]. *)
Fixpoint rstrip (c : ascii) (s : text) : text :=
  match s with
  | [] => []
  | x :: s' =>
      match rstrip c s' with
      | [] => if (x =? c)%char then [] else [x]
      | r => x :: r
      end
  end.

(** [len({x['cmd_index_on_line'] for x in items})] *)
Definition distinct_commands (items : list Item.t) : nat :=
  size (list_to_set (Item.cmd_index_on_line <$> items) : gset nat).

(** A [for] loop whose body may raise. *)
Fixpoint foldM {A B : Type} (f : B -> A -> res B) (b : B) (l : list A) : res B :=
  match l with
  | [] => Ok b
  | a :: l' => b' ← f b a; foldM f b' l'
  end.

(** The body of [for item in rex_items + regex_items], on line [i]. *)
Definition analyze_item (i : nat) (line : text) (st : list Row.t * Totals.t)
    (item : Item.t) : res (list Row.t * Totals.t) :=
  let totals := Totals.add_total_patterns 1 st.2 in
  let feats := detect_features (Item.pattern item) in
  java ← incompatible_for "java" feats;
  luc ← incompatible_for "lucene" feats;
  let totals :=
    if java.1 : bool then
      Totals.set_java (Totals.java_incompatible_patterns totals + 1)
        (foldl bump (Totals.java_feature_counts totals) java.2) totals
    else totals in
  let totals :=
    if luc.1 : bool then
      Totals.set_lucene (Totals.lucene_incompatible_patterns totals + 1)
        (foldl bump (Totals.lucene_feature_counts totals) luc.2) totals
    else totals in
  Ok (st.1 ++
        [ {| Row.line_number := i;
             Row.command := Item.cmd item;
             Row.cmd_index_on_line := Item.cmd_index_on_line item;
             Row.pattern_index_in_cmd := Item.pattern_index_in_cmd item;
             Row.field := Item.field item;
             Row.pattern := Item.pattern item;
             Row.features_detected := String.concat "," feats;
             Row.java_incompatible := java.1;
             Row.java_incompat_features := String.concat "," java.2;
             Row.lucene_incompatible := luc.1;
             Row.lucene_incompat_features := String.concat "," luc.2;
             Row.line := line |} ],
      totals).

(** The body of [for i, line in enumerate(f, start=1)]. *)
Definition analyze_line (st : list Row.t * Totals.t) (il : nat * text)
  : res (list Row.t * Totals.t) :=
  let i := il.1 in
  let line := rstrip newline il.2 in
  if forallb isspace line then Ok st
  else
    let totals := Totals.add_lines 1 st.2 in
    rex_items ← extract_from_rex line;
    regex_items ← extract_from_regex line;
    let totals :=
      match rex_items with
      | [] => totals
      | _ => Totals.add_rex_commands (distinct_commands rex_items) totals
      end in
    let totals :=
      match regex_items with
      | [] => totals
      | _ => Totals.add_regex_commands (distinct_commands regex_items) totals
      end in
    foldM (analyze_item i line) (st.1, totals) (rex_items ++ regex_items).

(** [analyze_file], on the lines that iterating over the opened file yields
    (each with its line terminator, if it has one). *)
Definition analyze_file (f : list text) : res (list Row.t * Totals.t) :=
  foldM analyze_line ([], Totals.init) (enumerate 1 f).

(** ** Entry point *)

(** What a run does to the outside world, in order: a message on the error
    stream, the two report files, the console summary, the closing lines
    naming the reports, and the traceback of an uncaught exception. *)
Inductive event : Type :=
  | Stderr (msg : string)
  | CsvFile (name : string) (rows : list Row.t)
  | JsonFile (name : string) (totals : Totals.t)
  | Summary (input_path : string) (rows : list Row.t) (totals : Totals.t)
  | ReportNames (csv json : string)
  | Traceback (e : exn).

Definition usage : string :=
  "Usage: python spl_regex_portability_audit.py /path/to/queries.txt".

(** What an existing path names: something that [open] refuses, or a file
    with its lines. *)
Inductive entry : Type :=
  | Unreadable
  | Readable (lines : list text).

Section Main.

(** [Path.expanduser] and [Path.stem], on paths written as strings. *)
Variable expanduser : string -> string.
Variable stem : string -> string.

(** The file system as the run sees it.  A path that [Path.exists] reports
    is mapped to what [open] does with it: [Unreadable] when [open] raises
    (a directory, a file without read permission), [Readable] with the
    lines that iterating over the file yields otherwise.  A path that does
    not exist is not in the map. *)
Variable fs : gmap string entry.

(** Whether opening a file of that name for writing in the current working
    directory succeeds. *)
Variable can_write : string -> bool.

(** The CSV report is written in full before the JSON report is opened;
    an [open] that fails raises and leaves what was written before it. *)
Definition write_reports (input_path : string) (rows : list Row.t)
    (totals : Totals.t) : list event * res (string * string) :=
  let out_csv := (stem input_path ++ ".portability_audit.csv")%string in
  let out_json := (stem input_path ++ ".portability_audit.json")%string in
  if can_write out_csv then
    if can_write out_json then
      ([CsvFile out_csv rows; JsonFile out_json totals], Ok (out_csv, out_json))
    else ([CsvFile out_csv rows], Raise OSError)
  else ([], Raise OSError).

(** [main], given [sys.argv]: the events of the run and the exit status of
    the process.  An exception that nothing catches ends the run with its
    traceback and status 1. *)
Definition main (argv : list string) : list event * nat :=
  if negb (length argv =? 2) then ([Stderr usage], 2)
  else
    let input_path := expanduser (nth 1 argv ""%string) in
    match fs !! input_path with
    | None => ([Stderr ("Input file not found: " ++ input_path)], 1)
    | Some Unreadable => ([Traceback OSError], 1)
    | Some (Readable f) =>
        match analyze_file f with
        | Raise e => ([Traceback e], 1)
        | Ok (rows, totals) =>
            match write_reports input_path rows totals with
            | (written, Raise e) => (written ++ [Traceback e], 1)
            | (written, Ok (csv, json)) =>
                (written ++ [Summary input_path rows totals; ReportNames csv json], 0)
            end
        end
    end.

End Main.

(** ** Vocabulary of the specification *)

(** Two adjacent double quotes sit at offset [j]: the opening or the closing
    marker of the doubled dialect. *)
Definition doubled_at (s : text) (j : nat) : Prop :=
  s !! j = Some dquote /\ s !! (j + 1) = Some dquote.

(** Decoding of backslash escapes, as the specification words it: an
    escaped character appears without its escaping backslash. *)
Fixpoint resolve_escapes (s : text) : text :=
  match s with
  | [] => []
  | c :: s' =>
      if (c =? backslash)%char then
        match s' with
        | [] => []
        | x :: s'' => x :: resolve_escapes s''
        end
      else c :: resolve_escapes s'
  end.

(** The specification's reading of the scanner under a backslash-escaped
    dialect: the content is the decoded text between the quotes. *)
Definition scanner_decodes : Prop :=
  forall (s : text) (i e : nat) (content : text),
    ~ doubled_at s i ->
    _scan_quoted s i = Ok (Some (e, content)) ->
    content = resolve_escapes (slice s (i + 1) (e - 1)).

(** The shortest text a pattern can match. *)
Fixpoint min_len (r : regex) : nat :=
  match r with
  | Chr _ | Set_ _ _ | Plus _ _ => 1
  | Seq r1 r2 => min_len r1 + min_len r2
  | Alt r1 r2 => min_len r1 `min` min_len r2
  | Group r1 => min_len r1
  | _ => 0
  end.

(** Skipping the argument prefix from offset [e] stops at [j]: nothing in
    between is a quote or a pipe, and [j] is the end of the line or holds a
    quote or a pipe. *)
Definition first_stop (line : text) (e j : nat) : Prop :=
  e <= j <= length line
  /\ (forall k c, e <= k < j -> line !! k = Some c -> is_quote c = false /\ c <> pipe)
  /\ (j < length line ->
      exists c, line !! j = Some c /\ (is_quote c = true \/ c = pipe)).

(** The record of a [rex] command. *)
Definition rex_item (cmd_i : nat) (content : text) : Item.t :=
  {| Item.cmd := "rex"; Item.cmd_index_on_line := cmd_i; Item.field := [];
     Item.pattern := content; Item.pattern_index_in_cmd := 1 |}.

(** What one [rex] occurrence whose keyword ends at [e] yields: nothing when
    the prefix runs into the end of the line or a pipe, or when the scan at
    the first quote fails; one record otherwise. *)
Definition rex_yield (line : text) (cmd_i e : nat) (items : list Item.t) : Prop :=
  exists j, first_stop line e j
    /\ ((items = []
         /\ (j = length line \/ line !! j = Some pipe \/ _scan_quoted line j = Ok None))
        \/ (exists en content, j < length line /\ line !! j <> Some pipe
              /\ _scan_quoted line j = Ok (Some (en, content))
              /\ items = [rex_item cmd_i content])).

(** What one numbered token of the line contributes to [extract_from_rex]. *)
Definition token_yield (line : text) (it : nat * (text * nat * nat))
    (items : list Item.t) : Prop :=
  if decide (it.2.1.1 = str "rex") then rex_yield line it.1 it.2.2 items
  else items = [].

(** The features for which only the Lucene table has an entry and that the
    specification singles out: named capture with angle brackets, the
    lookarounds and the possessive quantifiers. *)
Definition asymmetric_features : list string :=
  ["named_capture_angle"; "lookahead"; "lookbehind"; "possessive_quantifier"].

(** The offending features of a pattern for an engine. *)
Definition offending (engine : string) (pattern : text) : list string :=
  match incompatible_for engine (detect_features pattern) with
  | Ok r => r.2
  | Raise _ => []
  end.

(** The sum of the values of a counter dictionary. *)
Definition sum_counts (counts : gmap string nat) : nat :=
  map_fold (fun _ v acc => v + acc) 0 counts.

(** The counters of one engine agree with the rows written so far: the
    per-feature counts add up to the number of offending features over all
    rows, the pattern count is the number of flagged rows, and a row is
    flagged when it has an offending feature. *)
Definition engine_ok (engine : string) (flag : Row.t -> bool) (cnt : nat)
    (counts : gmap string nat) (rows : list Row.t) : Prop :=
  sum_counts counts
    = sum_list_with (fun r => length (offending engine (Row.pattern r))) rows
  /\ cnt = length (filter (fun r => flag r = true) rows)
  /\ Forall (fun r => flag r = (0 <? length (offending engine (Row.pattern r)))) rows.

(** A row comes from the line of the file whose 1-based position, counted
    over all lines, it carries. *)
Definition row_from (f : list text) (r : Row.t) : Prop :=
  1 <= Row.line_number r
  /\ exists raw, f !! (Row.line_number r - 1) = Some raw
                /\ Row.line r = rstrip newline raw.

Definition analysis_ok (f : list text) (st : list Row.t * Totals.t) : Prop :=
  Forall (row_from f) st.1
  /\ engine_ok "java" Row.java_incompatible
       (Totals.java_incompatible_patterns st.2) (Totals.java_feature_counts st.2) st.1
  /\ engine_ok "lucene" Row.lucene_incompatible
       (Totals.lucene_incompatible_patterns st.2) (Totals.lucene_feature_counts st.2) st.1.



(** What the specification says of one engine's counters: the pattern count
    is the number of flagged rows, the per-feature counts add up to at least
    that, and to exactly that when every flagged row has one offending
    feature. *)
Definition counts_cover (engine : string) (flag : Row.t -> bool) (cnt : nat)
    (counts : gmap string nat) (rows : list Row.t) : Prop :=
  cnt = length (filter (fun r => flag r = true) rows)
  /\ sum_counts counts
     = sum_list_with (fun r => length (offending engine (Row.pattern r))) rows
  /\ cnt <= sum_counts counts
  /\ (sum_counts counts = cnt
      <-> forall r, r ∈ rows -> flag r = true ->
                    length (offending engine (Row.pattern r)) = 1).

(** Ascending order on strings, the order [sorted] produces. *)
Definition ascending (l : list string) : Prop :=
  StronglySorted (fun a b => String.leb a b = true) l.

(** ** Sample inputs *)

Definition quoted (s : string) : text := [dquote] ++ str s ++ [dquote].

(** regex field=x ( a | b ), both fragments in double quotes *)
Definition sample_two_fragments : text :=
  str "regex field=x (" ++ quoted "a" ++ str "|" ++ quoted "b" ++ str ")".

(** rex followed by a(?<x>b) between doubled double quotes *)
Definition sample_doubled : text :=
  str "rex " ++ [dquote; dquote] ++ str "a(?<x>b)" ++ [dquote; dquote].

(** rex a | regex b, both patterns in double quotes *)
Definition sample_mixed : text :=
  str "rex " ++ quoted "a" ++ str " | regex " ++ quoted "b".

(** a double-quoted literal holding a, an escaped double quote, and b *)
Definition sample_escaped : text :=
  [dquote] ++ str "a" ++ [backslash; dquote] ++ str "b" ++ [dquote].

(** rex and a double-quoted literal that is never closed *)
Definition sample_unterminated : text := str "rex " ++ [dquote] ++ str "abc".

(** a file whose first line is empty and whose second line is a rex command *)
Definition sample_file : list text :=
  [ [newline]; str "rex " ++ quoted "a" ++ [newline] ].

(** ** Vocabulary of the further properties *)

(** The spans follow one another from offset [lo] on without overlap. *)
Fixpoint spans_chain (lo : nat) (out : list (nat * nat * text)) : Prop :=
  match out with
  | [] => True
  | sp :: rest => lo ≤ sp.1.1 ∧ sp.1.1 < sp.1.2 ∧ spans_chain sp.1.2 rest
  end.

(** Offset [j] lies inside one of the spans. *)

Definition covered (out : list (nat * nat * text)) (j : nat) : Prop :=
  ∃ sp, sp ∈ out ∧ sp.1.1 ≤ j < sp.1.2.

(** The span is what the scanner returns at its start offset. *)

Definition span_scanned (s : text) (sp : nat * nat * text) : Prop :=
  _scan_quoted s sp.1.1 = Ok (Some (sp.1.2, sp.2)).

(** A record as [extract_from_rex] builds them. *)
Definition rex_shaped (it : Item.t) : Prop :=
  Item.cmd it = "rex"%string ∧ Item.field it = [] ∧ Item.pattern_index_in_cmd it = 1.

(** A token of the [rex] command. *)
Definition is_rex_token (tok : text * nat * nat) : Prop := tok.1.1 = str "rex".

(** The names of the catalog, in the order of [DETECTORS]. *)
Definition catalog : list string := DETECTORS.*1.

(** Every match of the pattern goes through a character satisfying [p]. *)

Fixpoint must_contain (p : ascii -> bool) (r : regex) : bool :=
  match r with
  | Chr c => p c
  | Seq r1 r2 => must_contain p r1 || must_contain p r2
  | Alt r1 r2 => must_contain p r1 && must_contain p r2
  | Group r1 => must_contain p r1
  | _ => false
  end.

(** The characters one of which every detector needs. *)

Definition is_marker (c : ascii) : bool :=
  (c =? "(")%char || (c =? backslash)%char || (c =? "+")%char.

(** A pattern without parenthesis, backslash or plus sign. *)

Definition plain (pattern : text) : Prop :=
  Forall (fun c => is_marker c = false) pattern.

Definition table_of (engine : string) : option (gset string) :=
  if String.eqb engine "java" then Some JAVA_INCOMPATIBLE
  else if String.eqb engine "lucene" then Some LUCENE_INCOMPATIBLE
  else None.

(** The row that [analyze_file] writes for a record found on line [i]. *)
Definition row_of (i : nat) (line : text) (item : Item.t) : Row.t :=
  let feats := detect_features (Item.pattern item) in
  {| Row.line_number := i;
     Row.command := Item.cmd item;
     Row.cmd_index_on_line := Item.cmd_index_on_line item;
     Row.pattern_index_in_cmd := Item.pattern_index_in_cmd item;
     Row.field := Item.field item;
     Row.pattern := Item.pattern item;
     Row.features_detected := String.concat "," feats;
     Row.java_incompatible := 0 <? length (offending "java" (Item.pattern item));
     Row.java_incompat_features := String.concat "," (offending "java" (Item.pattern item));
     Row.lucene_incompatible := 0 <? length (offending "lucene" (Item.pattern item));
     Row.lucene_incompat_features :=
       String.concat "," (offending "lucene" (Item.pattern item));
     Row.line := line |}.

(** A line that [analyze_file] does not skip. *)

Definition nonblank (raw : text) : Prop := forallb isspace (rstrip newline raw) = false.

(** Every counted feature belongs to the table and is counted at least once
    and at most once per incompatible pattern. *)

Definition counts_bounded (table : gset string) (cnt : nat)
    (counts : gmap string nat) : Prop :=
  ∀ key v, counts !! key = Some v → key ∈ table ∧ 1 ≤ v ≤ cnt.

Definition same_line_totals (t t' : Totals.t) : Prop :=
  Totals.lines t' = Totals.lines t
  ∧ Totals.rex_commands t' = Totals.rex_commands t
  ∧ Totals.regex_commands t' = Totals.regex_commands t.

(** Both engines' per-feature counters are bounded. *)
Definition engines_bounded (t : Totals.t) : Prop :=
  counts_bounded JAVA_INCOMPATIBLE (Totals.java_incompatible_patterns t)
    (Totals.java_feature_counts t)
  ∧ counts_bounded LUCENE_INCOMPATIBLE (Totals.lucene_incompatible_patterns t)
      (Totals.lucene_feature_counts t).

(** The records of a line: those of [extract_from_rex], then those of
    [extract_from_regex]. *)
Definition line_items (line : text) : list Item.t :=
  match extract_from_rex line, extract_from_regex line with
  | Ok rex_items, Ok regex_items => rex_items ++ regex_items
  | _, _ => []
  end.

(** The rows of the line numbered [i]. *)

Definition line_rows (il : nat * text) : list Row.t :=
  let line := rstrip newline il.2 in
  if forallb isspace line then [] else row_of il.1 line <$> line_items line.

(** The rows of the lines [l], numbered from [start] on. *)

Definition rows_from (start : nat) (l : list text) : list Row.t :=
  enumerate start l ≫= line_rows.

(** A row of a [rex] command. *)
Definition is_rex_row (r : Row.t) : Prop := Row.command r = "rex"%string.

(** A row of a [regex] command. *)
Definition is_regex_row (r : Row.t) : Prop := Row.command r = "regex"%string.

(** The characters of [w] stand at offset [p] of [s], up to case when [ic]. *)
Fixpoint lit_at (ic : bool) (w : text) (s : text) (p : nat) : bool :=
  match w with
  | [] => true
  | c :: w' =>
      match s !! p with
      | Some x => chr_has ic c x && lit_at ic w' s (S p)
      | None => false
      end
  end.

(** A word character stands at offset [p]. *)
Definition word_at (s : text) (p : nat) : bool := from_option is_word false (s !! p).

(** A word character stands just before offset [p]. *)
Definition word_before (s : text) (p : nat) : bool :=
  match p with
  | 0 => false
  | S p' => word_at s p'
  end.

(** The keyword [kw] stands at offset [p] of [s] as a whole word, up to case. *)

Definition keyword_at (kw : string) (s : text) (p : nat) : bool :=
  negb (word_before s p) && lit_at true (str kw) s p
  && negb (word_at s (p + length (str kw))).

Definition low (w : text) : Prop :=
  Forall (fun c => lower_char c = c ∧ is_word c = true) w.

(** The token that starts at offset [p], if one does. *)
Definition tok_at (line : text) (p : nat) : option (text * nat * nat) :=
  if keyword_at "rex" line p then Some (str "rex", p, p + 3)
  else if keyword_at "regex" line p then Some (str "regex", p, p + 5)
  else None.

(** The keyword text [kw] stands at offset [s] as a whole word, up to case. *)

Definition whole_word (line : text) (kw : text) (s : nat) : Prop :=
  lower (slice line s (s + length kw)) = kw
  ∧ word_before line s = false
  ∧ word_at line (s + length kw) = false.

Definition token_before (t1 t2 : text * nat * nat) : Prop := t1.2 ≤ t2.1.2.

(** The body of the [regex] command whose keyword ends at [e]: up to the
    next pipe, or to the end of the line. *)
Definition regex_body (line : text) (e : nat) : text :=
  match find_char line pipe e with
  | Some end_ => slice line e end_
  | None => drop e line
  end.

(** The records of the [regex] command numbered [k] whose keyword ends at
    [e]: one per quoted span of its body. *)

Definition regex_records (line : text) (k e : nat) : list Item.t :=
  match _find_all_quoted (regex_body line e) with
  | Ok quotes =>
      (fun q : nat * (nat * nat * text) =>
         {| Item.cmd := "regex"; Item.cmd_index_on_line := k;
            Item.field := regex_field (regex_body line e); Item.pattern := q.2.2;
            Item.pattern_index_in_cmd := q.1 |}) <$> enumerate 1 quotes
  | Raise _ => []
  end.

(** A token of the [regex] command. *)
Definition is_regex_token (tok : text * nat * nat) : Prop := tok.1.1 = str "regex".

(** The ends of the [regex] keywords that start at offset [pos] or later. *)

Definition regex_ends (line : text) (pos : nat) : list nat :=
  omap (fun p => if keyword_at "regex" line p then Some (p + 5) else None)
       (seq pos (S (length line) - pos)).

Definition regex_shaped (k : nat) (it : Item.t) : Prop :=
  Item.cmd it = "regex"%string ∧ Item.cmd_index_on_line it = k
  ∧ 1 ≤ Item.pattern_index_in_cmd it.

(** A character that can stand in a resolved field name. *)
Definition field_char (x : ascii) : Prop := isspace x = false ∧ x ≠ "="%char ∧ x ≠ pipe.

(** Every capturing group of the pattern is a repetition of a set whose
    characters satisfy [P]. *)

Fixpoint groups_within (ic : bool) (P : ascii → Prop) (r : regex) : Prop :=
  match r with
  | Group (Plus neg cs) | Group (Star neg cs) => ∀ x, set_has ic neg cs x = true → P x
  | Group _ => False
  | Seq r1 r2 | Alt r1 r2 => groups_within ic P r1 ∧ groups_within ic P r2
  | Opt r1 => groups_within ic P r1
  | _ => True
  end.

(** The span captured so far lies in the string and holds characters
    satisfying [P] only. *)

Definition cap_within (P : ascii → Prop) (s : text) (st : mstate) : Prop :=
  match st.2 with
  | Some (a, b) => ∀ k, a ≤ k < b → ∃ x, s !! k = Some x ∧ P x
  | None => True
  end.

(** The equals sign. *)
Definition is_equals (c : ascii) : bool := (c =? "=")%char.

(** * Properties *)

Lemma getc_Some (s : text) i c : s !! i = Some c → getc s i = Ok c.
Proof. intros H. unfold getc. by rewrite H. Qed.

Lemma getc_lt (s : text) i : i < length s → ∃ c, s !! i = Some c ∧ getc s i = Ok c.
Proof.
  intros H. destruct (lookup_lt_is_Some_2 s i H) as [c Hc].
  exists c. split; [done | by apply getc_Some].
Qed.

Lemma ascii_eqb_true (a b : ascii) : (a =? b)%char = true ↔ a = b.
Proof. apply Ascii.eqb_eq. Qed.

Lemma ascii_eqb_false (a b : ascii) : (a =? b)%char = false ↔ a ≠ b.
Proof. apply Ascii.eqb_neq. Qed.

Lemma scan_doubled_spec fuel (s : text) start i :
  length s - i ≤ fuel →
  (scan_doubled fuel s start i = Ok None
   ∧ ∀ j, i ≤ j → ¬ doubled_at s j)
  ∨ (∃ j, i ≤ j ∧ j + 2 ≤ length s ∧ doubled_at s j
          ∧ (∀ k, i ≤ k < j → ¬ doubled_at s k)
          ∧ scan_doubled fuel s start i = Ok (Some (j + 2, slice s start j))).
Proof.
  revert i. induction fuel as [|fuel IH]; intros i Hfuel.
  - left. simpl. destruct (Nat.ltb_spec i (length s - 1)); [lia|].
    split; [done|]. intros j Hj [_ H2]. apply lookup_lt_Some in H2. lia.
  - simpl. destruct (Nat.ltb_spec i (length s - 1)) as [Hlt|Hge].
    + destruct (getc_lt s i) as (a & Ha & ->); [lia|].
      destruct (getc_lt s (i + 1)) as (b & Hb & Hgb); [lia|]. simpl.
      destruct (a =? dquote)%char eqn:Ea; simpl.
      * rewrite Hgb. simpl. destruct (b =? dquote)%char eqn:Eb.
        -- right. exists i. apply ascii_eqb_true in Ea, Eb. subst.
           split_and!; try done; try lia.
        -- destruct (IH (i + 1)) as [[Hn Hno]|(j & Hj & Hlen & Hc & Hmin & Hr)]; [lia| |].
           ++ left. split; [done|]. intros j Hj Hc.
              destruct (decide (j = i)) as [->|]; [|apply (Hno j); [lia|done]].
              destruct Hc as [_ Hc]. rewrite Hb in Hc. apply ascii_eqb_false in Eb. congruence.
           ++ right. exists j. split_and!; try done; try lia.
              intros k Hk Hck. destruct (decide (k = i)) as [->|]; [|apply (Hmin k); [lia|done]].
              destruct Hck as [_ Hck]. rewrite Hb in Hck. apply ascii_eqb_false in Eb. congruence.
      * destruct (IH (i + 1)) as [[Hn Hno]|(j & Hj & Hlen & Hc & Hmin & Hr)]; [lia| |].
        -- left. split; [done|]. intros j Hj Hc.
           destruct (decide (j = i)) as [->|]; [|apply (Hno j); [lia|done]].
           destruct Hc as [Hc _]. rewrite Ha in Hc. apply ascii_eqb_false in Ea. congruence.
        -- right. exists j. split_and!; try done; try lia.
           intros k Hk Hck. destruct (decide (k = i)) as [->|]; [|apply (Hmin k); [lia|done]].
           destruct Hck as [Hck _]. rewrite Ha in Hck. apply ascii_eqb_false in Ea. congruence.
    + left. split; [done|]. intros j Hj [_ H2]. apply lookup_lt_Some in H2. lia.
Qed.

Lemma scan_standard_spec fuel (s : text) q start i :
  length s - i ≤ fuel →
  scan_standard fuel s q start i = Ok None
  ∨ (∃ j, i ≤ j < length s ∧ s !! j = Some q
          ∧ scan_standard fuel s q start i = Ok (Some (j + 1, slice s start j))).
Proof.
  revert i. induction fuel as [|fuel IH]; intros i Hfuel.
  - left. simpl. destruct (Nat.ltb_spec i (length s)); [lia|done].
  - simpl. destruct (Nat.ltb_spec i (length s)) as [Hlt|Hge]; [|by left].
    destruct (getc_lt s i) as (c & Hc & ->); [lia|]. simpl.
    destruct (c =? backslash)%char.
    { destruct (IH (i + 2)) as [H|(j & Hj & Hq & H)]; [lia|by left|].
      right. exists j. split; [lia|done]. }
    destruct (c =? q)%char eqn:Eq.
    { right. exists i. apply ascii_eqb_true in Eq. subst. split; [lia|done]. }
    destruct (IH (i + 1)) as [H|(j & Hj & Hq & H)]; [lia|by left|].
    right. exists j. split; [lia|done].
Qed.

Lemma scan_standard_none fuel (s : text) q start i :
  length s - i ≤ fuel →
  (∀ j, i ≤ j → s !! j ≠ Some q) →
  scan_standard fuel s q start i = Ok None.
Proof.
  intros Hfuel Hno.
  destruct (scan_standard_spec fuel s q start i Hfuel) as [H|(j & Hj & Hq & _)]; [done|].
  exfalso. apply (Hno j); [lia|done].
Qed.

Lemma is_quote_dquote : is_quote dquote = true.
Proof. reflexivity. Qed.

Lemma scan_quoted_cases (s : text) i :
  ((length s ≤ i ∨ ∃ c, s !! i = Some c ∧ is_quote c = false)
     ∧ _scan_quoted s i = Ok None)
  ∨ (doubled_at s i
     ∧ _scan_quoted s i = scan_doubled (length s) s (i + 2) (i + 2))
  ∨ (∃ q, s !! i = Some q ∧ is_quote q = true ∧ ¬ doubled_at s i
          ∧ _scan_quoted s i = scan_standard (length s) s q (i + 1) (i + 1)).
Proof.
  unfold _scan_quoted. cbv zeta.
  destruct (Nat.leb_spec (length s) i) as [Hle|Hlt]; [left; split; [by left|done]|].
  destruct (getc_lt s i Hlt) as (ch & Hch & ->). simpl.
  destruct (is_quote ch) eqn:Eq; simpl; [|left; split; [right; eauto|done]].
  right. destruct (ch =? dquote)%char eqn:Ed; simpl.
  - apply ascii_eqb_true in Ed. subst ch.
    destruct (Nat.ltb_spec (i + 1) (length s)) as [Hlt1|Hge1].
    + destruct (getc_lt s (i + 1) Hlt1) as (c & Hc & ->). simpl.
      destruct (c =? dquote)%char eqn:Ec.
      * left. apply ascii_eqb_true in Ec. subst c. by split.
      * right. exists dquote. split_and!; try done.
        intros [_ H]. rewrite Hc in H. apply ascii_eqb_false in Ec. congruence.
    + simpl. right. exists dquote. split_and!; try done.
      intros [_ H]. apply lookup_lt_Some in H. lia.
  - right. exists ch. split_and!; try done.
    intros [H _]. rewrite Hch in H. apply ascii_eqb_false in Ed. congruence.
Qed.

Lemma scan_quoted_ok (s : text) (i : nat) :
  ∃ r, _scan_quoted s i = Ok r
       ∧ match r with Some (e, _) => i < e ≤ length s | None => True end.
Proof.
  destruct (scan_quoted_cases s i) as [[_ H]|[[Hd H]|(q & Hq & Hiq & Hnd & H)]].
  - by exists None.
  - rewrite H.
    destruct (scan_doubled_spec (length s) s (i + 2) (i + 2)) as
      [[Hn Hno]|(j & Hj & Hlen & Hc & Hmin & Hr)]; [lia|by exists None|].
    eexists. split; [exact Hr|]. simpl. lia.
  - rewrite H.
    destruct (scan_standard_spec (length s) s q (i + 1) (i + 1)) as
      [Hn|(j & Hj & Hjq & Hr)]; [lia|by exists None|].
    eexists. split; [exact Hr|]. simpl. lia.
Qed.

(** ** The matcher *)

Lemma run_len_le p (l : text) : run_len p l ≤ length l.
Proof. induction l as [|c l IH]; simpl; [lia|]. destruct (p c); simpl; lia. Qed.

Lemma repeat_set_bounds ic neg cs lo (s : text) (st st' : mstate) :
  st' ∈ repeat_set ic neg cs lo s st →
  st.1 ≤ length s →
  st.1 + lo ≤ st'.1 ≤ length s.
Proof.
  unfold repeat_set. intros Hin Hst.
  apply list_elem_of_fmap in Hin as (j & -> & Hj).
  apply elem_of_reverse, elem_of_seq in Hj. simpl.
  pose proof (run_len_le (set_has ic neg cs) (drop st.1 s)) as Hk.
  rewrite length_drop in Hk. lia.
Qed.

Ltac elem_cases H :=
  repeat match type of H with
    | _ ∈ [] => by apply elem_of_nil in H
    | _ ∈ [_] => apply list_elem_of_singleton in H as ->
    | _ ∈ (if ?b then _ else _) => destruct b eqn:?
    | _ ∈ (match ?o with Some _ => _ | None => _ end) => destruct o eqn:?
    | _ ∈ (match ?n with 0 => _ | S _ => _ end) => destruct n eqn:?
    end.

Lemma exec_bounds ic r (s : text) (st st' : mstate) :
  st' ∈ exec ic r s st →
  st.1 ≤ length s →
  st.1 + min_len r ≤ st'.1 ≤ length s.
Proof.
  revert st st'. induction r as [|c|neg cs|r1 IH1 r2 IH2|r1 IH1 r2 IH2|r1 IH1| | |r1 IH1| | | |];
    intros st st' Hin Hst; simpl in Hin; simpl min_len.
  - elem_cases Hin. lia.
  - elem_cases Hin. apply lookup_lt_Some in Heqo. simpl. lia.
  - elem_cases Hin. apply lookup_lt_Some in Heqo. simpl. lia.
  - apply list_elem_of_bind in Hin as (st1 & H2 & H1).
    specialize (IH1 _ _ H1 Hst). specialize (IH2 _ _ H2). lia.
  - apply elem_of_app in Hin as [H|H]; [specialize (IH1 _ _ H Hst)|specialize (IH2 _ _ H Hst)]; lia.
  - apply elem_of_app in Hin as [H|H]; [specialize (IH1 _ _ H Hst); lia|].
    elem_cases H. lia.
  - apply repeat_set_bounds in Hin; lia.
  - apply repeat_set_bounds in Hin; lia.
  - apply list_elem_of_fmap in Hin as (st1 & -> & H1).
    specialize (IH1 _ _ H1 Hst). simpl. lia.
  - elem_cases Hin; lia.
  - elem_cases Hin; lia.
  - elem_cases Hin; lia.
  - elem_cases Hin; lia.
Qed.

Lemma search_from_spec ic r (s : text) starts m :
  search_from ic r s starts = Some m →
  m.1 ∈ starts ∧ m.2 ∈ exec ic r s (m.1, None).
Proof.
  induction starts as [|p ps IH]; simpl; [done|].
  destruct (exec ic r s (p, None)) as [|m' ms] eqn:He.
  - intros H. destruct (IH H). split; [by right|done].
  - intros [= <-]. simpl. rewrite He. split; left.
Qed.

Lemma search_bounds ic r (s : text) m :
  search ic r s = Some m →
  m_start m + min_len r ≤ m_end m ≤ length s.
Proof.
  intros H. apply search_from_spec in H as [Hp Hm].
  apply elem_of_seq in Hp.
  apply exec_bounds in Hm; simpl in *; unfold m_start, m_end; lia.
Qed.

Lemma finditer_from_bounds ic r (s : text) starts from m :
  m ∈ finditer_from ic r s starts from →
  (∀ p, p ∈ starts → p ≤ length s) →
  m_start m + min_len r ≤ m_end m ≤ length s.
Proof.
  revert from. induction starts as [|p ps IH]; intros from Hin Hst; simpl in Hin.
  { by apply elem_of_nil in Hin. }
  assert (∀ p, p ∈ ps → p ≤ length s) as Hps by (intros q Hq; apply Hst; by right).
  destruct (p <? from); [by eapply IH|].
  destruct (exec ic r s (p, None)) as [|m' ms] eqn:He; [by eapply IH|].
  apply elem_of_cons in Hin as [->|Hin]; [|by eapply IH].
  assert (m' ∈ exec ic r s (p, None)) as Hm by (rewrite He; left).
  apply exec_bounds in Hm; simpl in *; unfold m_start, m_end; simpl.
  - lia.
  - apply Hst. left.
Qed.

Lemma iter_command_tokens_bounds (line : text) cmd s e :
  (cmd, s, e) ∈ _iter_command_tokens line → s < e ≤ length line.
Proof.
  unfold _iter_command_tokens. intros Hin.
  apply list_elem_of_fmap in Hin as (m & [= -> -> ->] & Hm).
  apply finditer_from_bounds in Hm.
  - assert (3 ≤ min_len WORD_BOUNDARY) by (vm_compute; lia). lia.
  - intros p Hp. apply elem_of_seq in Hp. lia.
Qed.

Lemma find_all_quoted_loop_total fuel (s : text) i out :
  length s - i ≤ fuel → ∃ out', find_all_quoted_loop fuel s i out = Ok out'.
Proof.
  revert i out. induction fuel as [|fuel IH]; intros i out Hfuel; simpl.
  - destruct (Nat.ltb_spec i (length s)); [lia|eauto].
  - destruct (Nat.ltb_spec i (length s)) as [Hlt|]; [|eauto].
    destruct (getc_lt s i Hlt) as (c & Hc & ->). simpl.
    destruct (is_quote c); [|apply IH; lia].
    destruct (scan_quoted_ok s i) as (r & -> & Hr). simpl.
    destruct r as [[e content]|]; apply IH; lia.
Qed.

Lemma find_all_quoted_total (s : text) : ∃ out, _find_all_quoted s = Ok out.
Proof. apply find_all_quoted_loop_total. lia. Qed.

Lemma isspace_not_stop c : isspace c = true → is_quote c = false ∧ c ≠ pipe.
Proof.
  intros H. split.
  - destruct (is_quote c) eqn:E; [|done]. unfold is_quote in E.
    apply orb_true_iff in E as [E|E]; apply ascii_eqb_true in E; subst; discriminate.
  - intros ->. discriminate.
Qed.

Lemma skip_spaces_spec fuel (line : text) i :
  length line - i ≤ fuel → i ≤ length line →
  ∃ j, skip_spaces fuel line i = Ok j ∧ i ≤ j ≤ length line
       ∧ ∀ k c, i ≤ k < j → line !! k = Some c → isspace c = true.
Proof.
  revert i. induction fuel as [|fuel IH]; intros i Hfuel Hi; simpl.
  - destruct (Nat.ltb_spec i (length line)); [lia|].
    exists i. split_and!; try done; try lia; intros; lia.
  - destruct (Nat.ltb_spec i (length line)) as [Hlt|];
      [|exists i; split_and!; try done; try lia; intros; lia].
    destruct (getc_lt line i Hlt) as (c & Hc & ->). simpl.
    destruct (isspace c) eqn:Es;
      [|exists i; split_and!; try done; try lia; intros; lia].
    destruct (IH (i + 1)) as (j & Hj & Hb & Hsp); [lia|lia|].
    exists j. split_and!; try done; try lia.
    intros k c' Hk Hc'. destruct (decide (k = i)) as [->|]; [congruence|].
    apply (Hsp k); [lia|done].
Qed.

Lemma skip_args_spec fuel (line : text) i :
  length line - i ≤ fuel → i ≤ length line →
  ∃ j, skip_args fuel line i = Ok j ∧ first_stop line i j.
Proof.
  revert i. induction fuel as [|fuel IH]; intros i Hfuel Hi; simpl.
  - destruct (Nat.ltb_spec i (length line)); [lia|].
    exists i. split; [done|]. split_and!; try lia; intros; lia.
  - destruct (Nat.ltb_spec i (length line)) as [Hlt|];
      [|exists i; split; [done|]; split_and!; try lia; intros; lia].
    destruct (getc_lt line i Hlt) as (c & Hc & ->). simpl.
    destruct (is_quote c) eqn:Eq; simpl.
    { exists i. split; [done|]. split_and!; try lia. eauto. }
    destruct (c =? pipe)%char eqn:Ep.
    { apply ascii_eqb_true in Ep.
      exists i. split; [done|]. split_and!; try lia. eauto. }
    apply ascii_eqb_false in Ep.
    destruct (IH (i + 1)) as (j & Hj & (Hb & Hskip & Hstop)); [lia|lia|].
    exists j. split; [done|]. split_and!; try lia; [|done].
    intros k c' Hk Hc'. destruct (decide (k = i)) as [->|].
    + assert (c' = c) as -> by congruence. done.
    + apply (Hskip k); [lia|done].
Qed.

Lemma first_stop_extend (line : text) e i j :
  e ≤ i →
  (∀ k c, e ≤ k < i → line !! k = Some c → isspace c = true) →
  first_stop line i j → first_stop line e j.
Proof.
  intros He Hsp (Hb & Hskip & Hstop). split_and!; try lia; [|done].
  intros k c Hk Hc. destruct (decide (k < i)).
  - apply isspace_not_stop, (Hsp k); [lia|done].
  - apply (Hskip k); [lia|done].
Qed.

Lemma rex_occurrence_spec (line : text) cmd_i s e :
  e ≤ length line →
  ∃ items, rex_occurrence line cmd_i (str "rex", s, e) = Ok items
           ∧ rex_yield line cmd_i e items.
Proof.
  intros He. unfold rex_occurrence. cbv zeta.
  replace (negb (text_eqb (str "rex") (str "rex"))) with false by done.
  destruct (skip_spaces_spec (length line) line e) as (i & -> & Hi & Hsp); [lia|lia|].
  simpl. destruct (skip_args_spec (length line) line i) as (j & -> & Hfs); [lia|lia|].
  simpl. apply (first_stop_extend line e i j) in Hfs; [|lia|done].
  destruct (Nat.leb_spec (length line) j) as [Hle|Hlt]; simpl.
  { exists []. split; [done|]. exists j. split; [done|]. left. split; [done|].
    left. destruct Hfs as (? & _). lia. }
  destruct (getc_lt line j Hlt) as (c & Hc & ->). simpl.
  destruct (c =? pipe)%char eqn:Ep.
  { apply ascii_eqb_true in Ep. subst.
    exists []. split; [done|]. exists j. split; [done|]. left. eauto. }
  apply ascii_eqb_false in Ep.
  destruct (scan_quoted_ok line j) as (r & Hscan & Hr). rewrite Hscan. simpl.
  destruct r as [[en content]|].
  - eexists. split; [done|]. exists j. split; [done|]. right.
    exists en, content. split_and!; [done|congruence|done|done].
  - exists []. split; [done|]. exists j. split; [done|]. left. eauto.
Qed.

Lemma rex_occurrence_other (line : text) cmd_i cmd s e :
  cmd ≠ str "rex" → rex_occurrence line cmd_i (cmd, s, e) = Ok [].
Proof.
  intros H. unfold rex_occurrence, text_eqb. by rewrite bool_decide_eq_false_2.
Qed.

Lemma rex_loop_spec (line : text) toks out :
  (∀ it, it ∈ toks → it.2.2 ≤ length line) →
  ∃ per, rex_loop line toks out = Ok (out ++ concat per)
         ∧ Forall2 (token_yield line) toks per.
Proof.
  revert out. induction toks as [|[cmd_i [[cmd s] e]] toks IH]; intros out Hb; cbn [rex_loop].
  - exists []. split; [by rewrite app_nil_r|constructor].
  - assert (e ≤ length line) as He by (apply (Hb (cmd_i, (cmd, s, e))); left).
    assert (∃ items, rex_occurrence line cmd_i (cmd, s, e) = Ok items
                     ∧ token_yield line (cmd_i, (cmd, s, e)) items) as (items & Hocc & Hy).
    { unfold token_yield. cbn [fst snd]. destruct (decide (cmd = str "rex")) as [->|Hne].
      - exact (rex_occurrence_spec line cmd_i s e He).
      - exists []. split; [by apply rex_occurrence_other|done]. }
    rewrite Hocc. simpl.
    destruct (IH (out ++ items)) as (per & -> & HF).
    { intros it Hit. apply Hb. by right. }
    exists (items :: per). split; [by rewrite <- app_assoc|by constructor].
Qed.

Lemma enumerate_elem_of {A} start (l : list A) i x :
  (i, x) ∈ enumerate start l → x ∈ l.
Proof. unfold enumerate. intros H. by apply elem_of_zip_r in H. Qed.

Lemma enumerate_tokens_bounds (line : text) it :
  it ∈ enumerate 1 (_iter_command_tokens line) → it.2.2 ≤ length line.
Proof.
  destruct it as [i [[cmd s] e]]. intros Hin. apply enumerate_elem_of in Hin.
  apply iter_command_tokens_bounds in Hin. simpl. lia.
Qed.

Lemma regex_loop_total fuel (line : text) pos cmd_index out :
  length line - pos ≤ fuel →
  ∃ out', regex_loop fuel line pos cmd_index out = Ok out'.
Proof.
  revert pos cmd_index out.
  induction fuel as [|fuel IH]; intros pos cmd_index out Hfuel; cbn [regex_loop];
    destruct (search true REGEX_CMD (drop pos line)) as [m|] eqn:Hs; eauto;
    apply search_bounds in Hs; rewrite length_drop in Hs;
    assert (min_len REGEX_CMD = 5) as Hmin by reflexivity; [lia|].
  cbv zeta.
  match goal with |- context [_find_all_quoted ?b] =>
    destruct (find_all_quoted_total b) as [quotes ->] end.
  simpl. apply IH. lia.
Qed.

Lemma extract_from_regex_total (line : text) :
  ∃ out, extract_from_regex line = Ok out.
Proof. apply regex_loop_total. lia. Qed.

Lemma extract_from_rex_total (line : text) :
  ∃ out, extract_from_rex line = Ok out.
Proof.
  destruct (rex_loop_spec line (enumerate 1 (_iter_command_tokens line)) [])
    as (per & H & _); [apply enumerate_tokens_bounds|].
  unfold extract_from_rex. eauto.
Qed.

Lemma sum_counts_insert (m : gmap string nat) k v :
  sum_counts (<[k := v]> m) + default 0 (m !! k) = sum_counts m + v.
Proof.
  unfold sum_counts. destruct (m !! k) as [w|] eqn:Hk; simpl.
  - rewrite <- (insert_delete_eq m).
    rewrite map_fold_insert_L; [|intros; lia|by rewrite lookup_delete_eq].
    rewrite (map_fold_delete_L _ _ k w m); [lia|intros; lia|done].
  - rewrite map_fold_insert_L; [lia|intros; lia|done].
Qed.

Lemma sum_counts_bump (m : gmap string nat) k :
  sum_counts (bump m k) = sum_counts m + 1.
Proof. unfold bump. pose proof (sum_counts_insert m k (default 0 (m !! k) + 1)). lia. Qed.

Lemma sum_counts_foldl_bump (l : list string) (m : gmap string nat) :
  sum_counts (foldl bump m l) = sum_counts m + length l.
Proof.
  revert m. induction l as [|k l IH]; intros m; simpl; [lia|].
  rewrite IH, sum_counts_bump. lia.
Qed.

Lemma incompatible_for_java feats :
  incompatible_for "java" feats
  = Ok (0 <? length (sorted (filter (fun f => f ∈ JAVA_INCOMPATIBLE) feats)),
        sorted (filter (fun f => f ∈ JAVA_INCOMPATIBLE) feats)).
Proof. reflexivity. Qed.

Lemma incompatible_for_lucene feats :
  incompatible_for "lucene" feats
  = Ok (0 <? length (sorted (filter (fun f => f ∈ LUCENE_INCOMPATIBLE) feats)),
        sorted (filter (fun f => f ∈ LUCENE_INCOMPATIBLE) feats)).
Proof. reflexivity. Qed.

Lemma foldM_total {A B} (f : B → A → res B) (P : B → Prop) b l :
  P b →
  (∀ b a, a ∈ l → P b → ∃ b', f b a = Ok b' ∧ P b') →
  ∃ b', foldM f b l = Ok b' ∧ P b'.
Proof.
  revert b. induction l as [|a l IH]; intros b Hb Hf; simpl; [eauto|].
  destruct (Hf b a) as (b1 & -> & Hb1); [left|done|]. simpl.
  apply IH; [done|]. intros b' a' Hin. apply Hf. by right.
Qed.

Lemma offending_java pattern :
  offending "java" pattern
  = sorted (filter (fun f => f ∈ JAVA_INCOMPATIBLE) (detect_features pattern)).
Proof. reflexivity. Qed.

Lemma offending_lucene pattern :
  offending "lucene" pattern
  = sorted (filter (fun f => f ∈ LUCENE_INCOMPATIBLE) (detect_features pattern)).
Proof. reflexivity. Qed.

Lemma engine_ok_snoc engine flag cnt counts rows r :
  engine_ok engine flag cnt counts rows →
  flag r = (0 <? length (offending engine (Row.pattern r))) →
  engine_ok engine flag
    (if flag r then cnt + 1 else cnt)
    (if flag r then foldl bump counts (offending engine (Row.pattern r)) else counts)
    (rows ++ [r]).
Proof.
  intros (Hsum & Hcnt & Hall) Hflag. unfold engine_ok.
  rewrite sum_list_with_app, filter_app, length_app, Forall_app. simpl.
  rewrite filter_cons, filter_nil.
  split_and!.
  - destruct (flag r).
    + rewrite sum_counts_foldl_bump. lia.
    + symmetry in Hflag. apply Nat.ltb_ge in Hflag. lia.
  - case_decide as Hd; destruct (flag r); simpl; try done; lia.
  - done.
  - by constructor.
Qed.

Lemma engine_ok_bounds engine flag cnt counts rows :
  engine_ok engine flag cnt counts rows →
  cnt ≤ sum_counts counts
  ∧ (sum_counts counts = cnt
     ↔ ∀ r, r ∈ rows → flag r = true → length (offending engine (Row.pattern r)) = 1).
Proof.
  intros (-> & -> & Hall). clear counts.
  induction Hall as [|r rows Hr Hall IH]; simpl.
  - split; [done|]. split; [|done]. intros _ r Hin. by apply elem_of_nil in Hin.
  - rewrite filter_cons. destruct IH as [Hle Hiff].
    destruct (length (offending engine (Row.pattern r))) as [|k] eqn:Hk.
    + assert (flag r = false) as Hf by (by rewrite Hr).
      rewrite decide_False by congruence. split; [lia|]. simpl. rewrite Hiff. split.
      * intros H r' Hin. apply elem_of_cons in Hin as [->|Hin]; [congruence|by apply H].
      * intros H r' Hin. apply H. by right.
    + assert (flag r = true) as Hf by (by rewrite Hr).
      rewrite decide_True by done. simpl. split; [lia|]. split.
      * intros Heq r' Hin. assert (k = 0) as -> by lia.
        apply elem_of_cons in Hin as [->|Hin]; [done|].
        apply Hiff; [lia|done].
      * intros H. rewrite (H r) in Hk by (done || left). injection Hk as <-.
        f_equal. apply Hiff. intros r' Hin. apply H. by right.
Qed.

Ltac totals_simpl :=
  cbn [fst snd Totals.lines Totals.rex_commands Totals.regex_commands
       Totals.total_patterns Totals.java_incompatible_patterns
       Totals.lucene_incompatible_patterns Totals.java_feature_counts
       Totals.lucene_feature_counts Totals.add_lines Totals.add_rex_commands
       Totals.add_regex_commands Totals.add_total_patterns Totals.set_java
       Totals.set_lucene Totals.init] in *.

Lemma analyze_item_ok (f : list text) i line st item :
  analysis_ok f st →
  1 ≤ i → (∃ raw, f !! (i - 1) = Some raw ∧ line = rstrip newline raw) →
  ∃ st', analyze_item i line st item = Ok st' ∧ analysis_ok f st'.
Proof.
  intros (Hrows & Hj & Hl) Hi Hraw.
  pose proof (offending_java (Item.pattern item)) as Hoj.
  pose proof (offending_lucene (Item.pattern item)) as Hol.
  unfold analyze_item. rewrite incompatible_for_java, incompatible_for_lucene.
  rewrite <- Hoj, <- Hol. clear Hoj Hol.
  cbn [mbind res_bind fst snd]. eexists. split; [reflexivity|].
  match goal with |- context [st.1 ++ [?r]] =>
    pose proof (engine_ok_snoc _ _ _ _ _ r Hj eq_refl) as Hj';
    pose proof (engine_ok_snoc _ _ _ _ _ r Hl eq_refl) as Hl' end.
  cbn [Row.java_incompatible Row.lucene_incompatible Row.pattern] in Hj', Hl'.
  split_and!; cbn [fst snd].
  - apply Forall_app. split; [done|]. constructor; [|constructor].
    split; [done|]. destruct Hraw as (raw & ? & ->). by exists raw.
  - destruct (0 <? length (offending "java" (Item.pattern item)));
      destruct (0 <? length (offending "lucene" (Item.pattern item)));
      totals_simpl; exact Hj'.
  - destruct (0 <? length (offending "java" (Item.pattern item)));
      destruct (0 <? length (offending "lucene" (Item.pattern item)));
      totals_simpl; exact Hl'.
Qed.

Lemma enumerate_lookup {A} start (l : list A) i x :
  (i, x) ∈ enumerate start l → start ≤ i ∧ l !! (i - start) = Some x.
Proof.
  unfold enumerate. revert start. induction l as [|y l IH]; intros start; simpl.
  - intros H. by apply elem_of_nil in H.
  - intros H. apply elem_of_cons in H as [[= -> ->]|H].
    + split; [lia|]. by rewrite Nat.sub_diag.
    + apply IH in H as [Hle Hl]. split; [lia|].
      replace (i - start) with (S (i - S start)) by lia. done.
Qed.

Lemma analyze_line_ok (f : list text) st il :
  il ∈ enumerate 1 f →
  analysis_ok f st →
  ∃ st', analyze_line st il = Ok st' ∧ analysis_ok f st'.
Proof.
  destruct il as [i raw]. intros Hin Hok.
  apply enumerate_lookup in Hin as [Hi Hraw].
  unfold analyze_line. cbn [fst snd].
  destruct (forallb isspace (rstrip newline raw)); [eauto|].
  destruct (extract_from_rex_total (rstrip newline raw)) as [rex_items ->].
  destruct (extract_from_regex_total (rstrip newline raw)) as [regex_items ->].
  cbn [mbind res_bind].
  match goal with |- context [foldM _ ?b _] =>
    apply (foldM_total _ (analysis_ok f) b) end.
  - destruct Hok as (Hrows & Hj & Hl). split_and!; cbn [fst snd]; [done| |];
      destruct rex_items, regex_items; totals_simpl; done.
  - intros b a _ Hb. apply analyze_item_ok; eauto.
Qed.

Lemma analyze_file_ok (f : list text) :
  ∃ rows totals, analyze_file f = Ok (rows, totals) ∧ analysis_ok f (rows, totals).
Proof.
  destruct (foldM_total analyze_line (analysis_ok f) ([], Totals.init) (enumerate 1 f))
    as ([rows totals] & H & Hok).
  - split_and!; [constructor| |]; (split_and!; [done|done|constructor]).
  - intros b a Hin Hb. by apply analyze_line_ok.
  - by exists rows, totals.
Qed.

(** ** Sorting *)

Lemma ascii_compare_N a b : Ascii.compare a b = N.compare (N_of_ascii a) (N_of_ascii b).
Proof. reflexivity. Qed.

Lemma string_leb_trans a b c :
  String.leb a b = true → String.leb b c = true → String.leb a c = true.
Proof.
  unfold String.leb. revert b c.
  induction a as [|x a IH]; intros [|y b] [|z c]; simpl; try done.
  rewrite !ascii_compare_N.
  destruct (N.compare_spec (N_of_ascii x) (N_of_ascii y)) as [Hxy|Hxy|Hxy];
    destruct (N.compare_spec (N_of_ascii y) (N_of_ascii z)) as [Hyz|Hyz|Hyz];
    destruct (N.compare_spec (N_of_ascii x) (N_of_ascii z)) as [Hxz|Hxz|Hxz];
    try done; try lia.
  apply IH.
Qed.

Lemma string_leb_false a b : String.leb a b = false → String.leb b a = true.
Proof. intros H. destruct (String.leb_total a b) as [H'|H']; congruence. Qed.

Lemma insert_sorted_elem_of x y l : y ∈ insert_sorted x l ↔ y = x ∨ y ∈ l.
Proof.
  induction l as [|z l IH]; simpl.
  - rewrite list_elem_of_singleton, elem_of_nil. tauto.
  - destruct (String.leb x z).
    + rewrite !elem_of_cons. tauto.
    + rewrite !elem_of_cons, IH. tauto.
Qed.

Lemma insert_sorted_ascending x l : ascending l → ascending (insert_sorted x l).
Proof.
  unfold ascending. induction 1 as [|z l Hl IH Hz]; simpl.
  - repeat constructor.
  - destruct (String.leb x z) eqn:E.
    + constructor; [by constructor|]. constructor; [done|].
      eapply Forall_impl; [exact Hz|]. intros w Hw. by eapply string_leb_trans.
    + constructor; [done|]. apply Forall_forall. intros w Hw.
      apply insert_sorted_elem_of in Hw as [->|Hw]; [by apply string_leb_false|].
      by apply (proj1 (Forall_forall _ _) Hz).
Qed.

Lemma sorted_ascending l : ascending (sorted l).
Proof.
  induction l as [|x l IH]; simpl; [constructor|]. by apply insert_sorted_ascending.
Qed.

Lemma sorted_elem_of x l : x ∈ sorted l ↔ x ∈ l.
Proof.
  induction l as [|y l IH]; simpl; [done|].
  rewrite insert_sorted_elem_of, elem_of_cons, IH. done.
Qed.

Lemma insert_sorted_length x l : length (insert_sorted x l) = S (length l).
Proof. induction l as [|y l IH]; simpl; [done|]. destruct (String.leb x y); simpl; lia. Qed.

Lemma sorted_length l : length (sorted l) = length l.
Proof. induction l as [|y l IH]; simpl; [done|]. rewrite insert_sorted_length. lia. Qed.

Lemma sublist_insert_sorted x l : sublist l (insert_sorted x l).
Proof.
  induction l as [|y l IH]; simpl; [by constructor|].
  destruct (String.leb x y); [by constructor|by constructor].
Qed.

Lemma insert_sorted_sublist x l1 l2 :
  ascending l2 → sublist l1 l2 → sublist (insert_sorted x l1) (insert_sorted x l2).
Proof.
  intros Hs Hsub. induction Hsub as [|y l1 l2 Hsub IH|y l1 l2 Hsub IH]; simpl.
  - done.
  - apply StronglySorted_inv in Hs as [Hs Hy].
    destruct (String.leb x y); [by repeat constructor|].
    constructor. by apply IH.
  - apply StronglySorted_inv in Hs as [Hs Hy].
    destruct (String.leb x y) eqn:E; [|constructor; by apply IH].
    assert (insert_sorted x l1 = x :: l1) as ->.
    { destruct l1 as [|z l1]; [done|]. simpl.
      assert (z ∈ l2) as Hz by (eapply elem_of_sublist; [left|exact Hsub]).
      rewrite (string_leb_trans x y z); [done|done|].
      by apply (proj1 (Forall_forall _ _) Hy). }
    constructor. by constructor.
Qed.

Lemma sorted_sublist l1 l2 : sublist l1 l2 → sublist (sorted l1) (sorted l2).
Proof.
  induction 1 as [|y l1 l2 Hsub IH|y l1 l2 Hsub IH]; simpl.
  - constructor.
  - apply insert_sorted_sublist; [apply sorted_ascending|done].
  - etrans; [exact IH|apply sublist_insert_sorted].
Qed.

Lemma filter_sublist_mono {A} (P Q : A → Prop) `{!∀ x, Decision (P x)}
    `{!∀ x, Decision (Q x)} (l : list A) :
  (∀ x, P x → Q x) → sublist (filter P l) (filter Q l).
Proof.
  intros HPQ. induction l as [|x l IH]; [constructor|].
  rewrite !filter_cons. destruct (decide (P x)) as [HP|HP].
  - rewrite decide_True by auto. by constructor.
  - destruct (decide (Q x)); [by constructor|done].
Qed.

(** ** Claims *)

(** C1, as stated, fails: on the line [sample_two_fragments], a regex command
    with field=x and two double-quoted fragments a and b separated by a pipe
    inside parentheses, the two extractors together do not produce two
    records numbered 1 and 2 with field x. *)
Lemma regex_two_fragments_counterexample :
  ¬ ∃ rex_items regex_items r1 r2,
      extract_from_rex sample_two_fragments = Ok rex_items
      ∧ extract_from_regex sample_two_fragments = Ok regex_items
      ∧ rex_items ++ regex_items = [r1; r2]
      ∧ Item.pattern_index_in_cmd r1 = 1 ∧ Item.pattern_index_in_cmd r2 = 2
      ∧ Item.field r1 = str "x" ∧ Item.field r2 = str "x".
Proof.
  intros (a & b & r1 & r2 & Ha & Hb & H & _).
  vm_compute in Ha, Hb. injection Ha as <-. injection Hb as <-. discriminate H.
Qed.

(** C1, amended: on the line [sample_two_fragments] extraction yields
    exactly one record: the rex extractor yields none and the regex
    extractor yields one, with pattern a, pattern index 1 and field x. *)
Theorem regex_body_ends_at_pipe :
  extract_from_rex sample_two_fragments = Ok []
  ∧ extract_from_regex sample_two_fragments
    = Ok [ Item.mk "regex" 1 (str "x") (str "a") 1 ].
Proof. split; vm_compute; reflexivity. Qed.

(** C2, as stated, fails: under a backslash-escaped dialect the scanner does
    not resolve escapes.  On a double-quoted literal holding [a], an escaped
    double quote and [b], the content keeps the backslash. *)
Lemma escapes_resolved_counterexample : ¬ scanner_decodes.
Proof.
  intros H.
  specialize (H sample_escaped 0 6 (str "a" ++ [backslash; dquote] ++ str "b")).
  assert (¬ doubled_at sample_escaped 0) as Hnd.
  { intros [_ H2]. vm_compute in H2. discriminate H2. }
  specialize (H Hnd eq_refl). vm_compute in H. discriminate H.
Qed.

(** C2, amended: whenever the scanner succeeds, the content is the text
    between the quote markers exactly as it stands in the input, escaping
    backslashes included: between the doubled markers in the doubled-quote
    dialect, and between the opening quote and the matching closing quote in
    the backslash-escaped dialects. *)
Theorem scan_quoted_content (s : text) (i e : nat) (content : text) :
  _scan_quoted s i = Ok (Some (e, content)) →
  (doubled_at s i ∧ i + 4 ≤ e ∧ doubled_at s (e - 2)
     ∧ content = slice s (i + 2) (e - 2))
  ∨ (¬ doubled_at s i
     ∧ ∃ q, is_quote q = true ∧ s !! i = Some q ∧ i + 2 ≤ e ∧ s !! (e - 1) = Some q
            ∧ content = slice s (i + 1) (e - 1)).
Proof.
  intros Hs.
  destruct (scan_quoted_cases s i) as [[_ H]|[[Hd H]|(q & Hq & Hiq & Hnd & H)]].
  - congruence.
  - left. rewrite H in Hs.
    destruct (scan_doubled_spec (length s) s (i + 2) (i + 2)) as
      [[Hn Hno]|(j & Hj & Hlen & Hc & Hmin & Hr)]; [lia|congruence|].
    rewrite Hr in Hs. injection Hs as <- <-.
    replace (j + 2 - 2) with j by lia. split_and!; try done. lia.
  - right. split; [done|]. exists q. rewrite H in Hs.
    destruct (scan_standard_spec (length s) s q (i + 1) (i + 1)) as
      [Hn|(j & Hj & Hjq & Hr)]; [lia|congruence|].
    rewrite Hr in Hs. injection Hs as <- <-.
    replace (j + 1 - 1) with j by lia. split_and!; try done. lia.
Qed.

Lemma scan_quoted_content_witness :
  _scan_quoted sample_escaped 0
    = Ok (Some (6, str "a" ++ [backslash; dquote] ++ str "b"))
  ∧ ((doubled_at sample_escaped 0 ∧ 0 + 4 ≤ 6 ∧ doubled_at sample_escaped (6 - 2)
        ∧ str "a" ++ [backslash; dquote] ++ str "b" = slice sample_escaped (0 + 2) (6 - 2))
     ∨ (¬ doubled_at sample_escaped 0
        ∧ ∃ q, is_quote q = true ∧ sample_escaped !! 0 = Some q ∧ 0 + 2 ≤ 6
               ∧ sample_escaped !! (6 - 1) = Some q
               ∧ str "a" ++ [backslash; dquote] ++ str "b"
                 = slice sample_escaped (0 + 1) (6 - 1))).
Proof.
  split; [reflexivity|].
  apply (scan_quoted_content sample_escaped 0 6). reflexivity.
Defined.

(** C3: the scanner is total.  For every string and offset it returns, without
    raising and without reading outside the string, either no span or a span
    whose end lies after the offset and within the string; and it returns no
    span when the quote at the offset has no later occurrence, or when the
    doubled opening marker is followed by no doubled closing marker. *)
Theorem scan_quoted_total (s : text) (i : nat) :
  (∃ r, _scan_quoted s i = Ok r
        ∧ match r with Some (e, _) => i < e ≤ length s | None => True end)
  ∧ (∀ q, s !! i = Some q → (∀ j, i < j → s !! j ≠ Some q) →
          _scan_quoted s i = Ok None)
  ∧ (doubled_at s i → (∀ j, i + 2 ≤ j → ¬ doubled_at s j) →
     _scan_quoted s i = Ok None).
Proof.
  split; [apply scan_quoted_ok|].
  destruct (scan_quoted_cases s i) as [[_ H]|[[Hd H]|(q & Hq & Hiq & Hnd & H)]].
  - done.
  - rewrite H.
    destruct (scan_doubled_spec (length s) s (i + 2) (i + 2)) as
      [[Hn Hno]|(j & Hj & Hlen & Hc & Hmin & Hr)]; [lia|done|].
    split.
    + intros q Hq Hno. exfalso. destruct Hd as [H1 H2].
      apply (Hno (i + 1)); [lia|]. congruence.
    + intros _ Hno. exfalso. by apply (Hno j).
  - rewrite H.
    destruct (scan_standard_spec (length s) s q (i + 1) (i + 1)) as
      [Hn|(j & Hj & Hjq & Hr)]; [lia|done|].
    split.
    + intros q' Hq' Hno. exfalso. apply (Hno j); [lia|]. congruence.
    + intros Hd. by destruct Hnd.
Qed.

Lemma scan_quoted_total_witness :
  (∀ j, 4 < j → sample_unterminated !! j ≠ Some dquote)
  ∧ _scan_quoted sample_unterminated 4 = Ok None.
Proof.
  assert (∀ j, 4 < j → sample_unterminated !! j ≠ Some dquote) as Hno.
  { intros j Hj. do 8 (destruct j as [|j]; [first [lia | discriminate]|]).
    discriminate. }
  split; [exact Hno|].
  exact (proj1 (proj2 (scan_quoted_total sample_unterminated 4)) dquote eq_refl Hno).
Defined.

(** C4: [extract_from_rex] returns the concatenation of what the numbered
    tokens of the line contribute, in order.  A token that is not [rex]
    contributes nothing.  A [rex] token contributes nothing when skipping
    the argument prefix reaches the end of the line or a pipe before a quote,
    or when the scan at the first quote fails; otherwise it contributes
    exactly one record, with pattern index 1 and an empty field name. *)
Theorem extract_from_rex_spec (line : text) :
  ∃ per, extract_from_rex line = Ok (concat per)
         ∧ Forall2 (token_yield line) (enumerate 1 (_iter_command_tokens line)) per.
Proof.
  unfold extract_from_rex.
  destruct (rex_loop_spec line (enumerate 1 (_iter_command_tokens line)) [])
    as (per & H & HF); [apply enumerate_tokens_bounds|].
  by exists per.
Qed.

Lemma extract_from_rex_spec_witness :
  extract_from_rex sample_unterminated = Ok []
  ∧ ∃ per, extract_from_rex sample_unterminated = Ok (concat per)
           ∧ Forall2 (token_yield sample_unterminated)
               (enumerate 1 (_iter_command_tokens sample_unterminated)) per.
Proof. split; [reflexivity|]. exact (extract_from_rex_spec sample_unterminated). Defined.

Lemma asymmetric_in_lucene f :
  f ∈ asymmetric_features → f ∈ LUCENE_INCOMPATIBLE ∧ f ∉ JAVA_INCOMPATIBLE.
Proof.
  unfold asymmetric_features. rewrite !elem_of_cons, elem_of_nil.
  intros [->|[->|[->|[->|[]]]]]; split;
    apply (bool_decide_unpack _); vm_compute; reflexivity.
Qed.

Lemma filter_asymmetric feats :
  (∀ f, f ∈ feats → f ∈ asymmetric_features) →
  filter (fun f => f ∈ LUCENE_INCOMPATIBLE) feats = feats
  ∧ filter (fun f => f ∈ JAVA_INCOMPATIBLE) feats = [].
Proof.
  induction feats as [|f feats IH]; intros Hall; [done|].
  destruct (asymmetric_in_lucene f) as [Hl Hj]; [apply Hall; left|].
  destruct IH as [IHl IHj]; [intros g Hg; apply Hall; by right|].
  rewrite !filter_cons, decide_True, decide_False, IHl, IHj by done. done.
Qed.

(** C5: a pattern whose detected features are all among named capture with
    angle brackets, lookahead, lookbehind and possessive quantifier, and are
    not none, is incompatible for lucene, every detected feature being in
    the offending list, and is not incompatible for java.  The line
    [sample_doubled], a rex command whose pattern a(?<x>b) stands between
    doubled double quotes, yields that pattern, whose only detected feature
    is the named capture with angle brackets, and shows this asymmetry. *)
Theorem lookaround_asymmetry :
  (∀ pattern,
     detect_features pattern ≠ [] →
     (∀ f, f ∈ detect_features pattern → f ∈ asymmetric_features) →
     ∃ bad, incompatible_for "lucene" (detect_features pattern) = Ok (true, bad)
            ∧ (∀ f, f ∈ detect_features pattern → f ∈ bad)
            ∧ incompatible_for "java" (detect_features pattern) = Ok (false, []))
  ∧ extract_from_rex sample_doubled = Ok [rex_item 1 (str "a(?<x>b)")]
  ∧ detect_features (str "a(?<x>b)") = ["named_capture_angle"]
  ∧ incompatible_for "lucene" (detect_features (str "a(?<x>b)"))
    = Ok (true, ["named_capture_angle"])
  ∧ incompatible_for "java" (detect_features (str "a(?<x>b)")) = Ok (false, []).
Proof.
  split; [|split_and!; vm_compute; reflexivity].
  intros pattern Hne Hall.
  destruct (filter_asymmetric _ Hall) as [Hl Hj].
  rewrite incompatible_for_lucene, incompatible_for_java, Hl, Hj.
  exists (sorted (detect_features pattern)). split_and!.
  - rewrite sorted_length. destruct (detect_features pattern); done.
  - intros f Hf. by apply sorted_elem_of.
  - done.
Qed.

Lemma lookaround_asymmetry_witness :
  ∃ bad, incompatible_for "lucene" (detect_features (str "x(?=y)z++")) = Ok (true, bad)
         ∧ (∀ f, f ∈ detect_features (str "x(?=y)z++") → f ∈ bad)
         ∧ incompatible_for "java" (detect_features (str "x(?=y)z++")) = Ok (false, []).
Proof.
  assert (detect_features (str "x(?=y)z++") = ["lookahead"; "possessive_quantifier"])
    as E by reflexivity.
  apply (proj1 lookaround_asymmetry (str "x(?=y)z++")); rewrite E.
  - discriminate.
  - intros f Hf. unfold asymmetric_features.
    rewrite !elem_of_cons in Hf. rewrite !elem_of_cons.
    destruct Hf as [->|[->|Hf]]; [tauto|tauto|by apply elem_of_nil in Hf].
Defined.

(** C6 fails on the code: on the line [sample_mixed], a rex command piped
    into a regex command, the regex keyword is the second command occurrence
    of the line, and the record that [extract_from_regex] emits for it
    carries index 1, the same index that [extract_from_rex] gives to the
    record of the first occurrence. *)
Theorem regex_index_counts_regex_only :
  _iter_command_tokens sample_mixed = [(str "rex", 0, 3); (str "regex", 10, 15)]
  ∧ extract_from_rex sample_mixed = Ok [rex_item 1 (str "a")]
  ∧ extract_from_regex sample_mixed = Ok [Item.mk "regex" 1 [] (str "b") 1].
Proof. split_and!; vm_compute; reflexivity. Qed.



Lemma java_subset_lucene : JAVA_INCOMPATIBLE ⊆ LUCENE_INCOMPATIBLE.
Proof. apply (bool_decide_unpack _). vm_compute. reflexivity. Qed.

(** C8: the java table is included in the lucene table; hence, for every
    feature list, both classifications succeed, java's offending list is a
    sublist of lucene's, and a pattern incompatible for java is incompatible
    for lucene. *)
Theorem java_table_within_lucene :
  JAVA_INCOMPATIBLE ⊆ LUCENE_INCOMPATIBLE
  ∧ ∀ features, ∃ java_bad java_feats luc_bad luc_feats,
      incompatible_for "java" features = Ok (java_bad, java_feats)
      ∧ incompatible_for "lucene" features = Ok (luc_bad, luc_feats)
      ∧ sublist java_feats luc_feats
      ∧ implb java_bad luc_bad = true.
Proof.
  split; [exact java_subset_lucene|]. intros features.
  rewrite incompatible_for_java, incompatible_for_lucene.
  do 4 eexists. split_and!; [reflexivity|reflexivity| |].
  - apply sorted_sublist, filter_sublist_mono. intros f. apply java_subset_lucene.
  - pose proof (sublist_length _ _
      (sorted_sublist _ _ (filter_sublist_mono (fun f => f ∈ JAVA_INCOMPATIBLE)
         (fun f => f ∈ LUCENE_INCOMPATIBLE) features (fun f => java_subset_lucene f)))) as Hlen.
    destruct (Nat.ltb_spec 0
      (length (sorted (filter (fun f => f ∈ JAVA_INCOMPATIBLE) features)))); [|done].
    simpl. apply Nat.ltb_lt. lia.
Qed.

Lemma counts_cover_of_ok engine flag cnt counts rows :
  engine_ok engine flag cnt counts rows → counts_cover engine flag cnt counts rows.
Proof.
  intros Hok. destruct (engine_ok_bounds _ _ _ _ _ Hok) as [Hle Hiff].
  destruct Hok as (Hsum & Hcnt & _). by split_and!.
Qed.

(** C10: with an argument count other than one (a missing argument
    included) the run prints the usage message on the error stream and exits
    with status 2; with one argument naming a file that does not exist it
    prints that the input file was not found and exits with status 1; with
    one argument naming a readable file, and both report files writable,
    the analysis completes, the two reports are written and the exit status
    is 0. *)
Theorem main_exit_codes (expanduser stem : string → string)
    (fs : gmap string entry) (can_write : string → bool) (argv : list string) :
  (length argv ≠ 2 → main expanduser stem fs can_write argv = ([Stderr usage], 2))
  ∧ (∀ prog path, argv = [prog; path] → fs !! expanduser path = None →
       main expanduser stem fs can_write argv
       = ([Stderr ("Input file not found: " ++ expanduser path)], 1))
  ∧ (∀ prog path f, argv = [prog; path] →
       fs !! expanduser path = Some (Readable f) →
       can_write (stem (expanduser path) ++ ".portability_audit.csv")%string = true →
       can_write (stem (expanduser path) ++ ".portability_audit.json")%string = true →
       ∃ rows totals,
         analyze_file f = Ok (rows, totals)
         ∧ main expanduser stem fs can_write argv
           = ([CsvFile (stem (expanduser path) ++ ".portability_audit.csv") rows;
               JsonFile (stem (expanduser path) ++ ".portability_audit.json") totals;
               Summary (expanduser path) rows totals;
               ReportNames (stem (expanduser path) ++ ".portability_audit.csv")
                           (stem (expanduser path) ++ ".portability_audit.json")],
              0)).
Proof.
  split_and!.
  - intros Hlen. unfold main.
    destruct (Nat.eqb_spec (length argv) 2); [done|reflexivity].
  - intros prog path -> Hfs. unfold main. simpl. by rewrite Hfs.
  - intros prog path f -> Hfs Hcsv Hjson.
    destruct (analyze_file_ok f) as (rows & totals & Hrun & _).
    exists rows, totals. split; [done|].
    unfold main, write_reports. simpl. by rewrite Hfs, Hrun, Hcsv, Hjson.
Qed.

Lemma main_exit_codes_witness :
  main id id ∅ (fun _ => true) ["audit.py"] = ([Stderr usage], 2)
  ∧ main id id ∅ (fun _ => true) ["audit.py"; "queries.txt"]
    = ([Stderr "Input file not found: queries.txt"], 1)
  ∧ ∃ rows totals,
      analyze_file sample_file = Ok (rows, totals)
      ∧ main id id {[ "queries.txt" := Readable sample_file ]} (fun _ => true)
             ["audit.py"; "queries.txt"]
        = ([CsvFile "queries.txt.portability_audit.csv" rows;
            JsonFile "queries.txt.portability_audit.json" totals;
            Summary "queries.txt" rows totals;
            ReportNames "queries.txt.portability_audit.csv"
                        "queries.txt.portability_audit.json"], 0).
Proof.
  split_and!.
  - apply (proj1 (main_exit_codes id id ∅ (fun _ => true) ["audit.py"])). simpl. lia.
  - apply (proj1 (proj2 (main_exit_codes id id ∅ (fun _ => true)
                           ["audit.py"; "queries.txt"]))
             "audit.py" "queries.txt"); reflexivity.
  - apply (proj2 (proj2 (main_exit_codes id id
                           {[ "queries.txt" := Readable sample_file ]} (fun _ => true)
                           ["audit.py"; "queries.txt"]))
             "audit.py" "queries.txt" sample_file); [reflexivity| |reflexivity..].
    apply lookup_singleton_eq.
Defined.

(** ** Further properties *)

Lemma slice_lookup_Some (s : text) a b k c :
  slice s a b !! k = Some c ↔ a + k < b ∧ s !! (a + k) = Some c.
Proof.
  unfold slice. rewrite lookup_take_Some, lookup_drop. split; intros [? ?]; split; (done || lia).
Qed.

Lemma slice_length (s : text) a b : b ≤ length s → length (slice s a b) = b - a.
Proof. intros H. unfold slice. rewrite length_take, length_drop. lia. Qed.

(** [scan_standard] never stops before a delimiter it has not skipped. *)

Lemma scan_standard_escaped fuel (s : text) q start i j c :
  length s - i ≤ fuel → q ≠ backslash →
  scan_standard fuel s q start i = Ok (Some (j, c)) →
  ∀ k, i ≤ k < j - 1 → s !! k = Some q → i < k ∧ s !! (k - 1) = Some backslash.
Proof.
  revert i. induction fuel as [|fuel IH]; intros i Hfuel Hq; simpl.
  - destruct (Nat.ltb_spec i (length s)); [lia|done].
  - destruct (Nat.ltb_spec i (length s)) as [Hlt|]; [|done].
    destruct (getc_lt s i Hlt) as (x & Hx & ->). simpl.
    destruct (x =? backslash)%char eqn:Eb.
    { apply ascii_eqb_true in Eb. subst x. intros Hs k Hk Hkq.
      destruct (decide (k = i)) as [->|]; [congruence|].
      destruct (decide (k = i + 1)) as [->|].
      - split; [lia|]. by replace (i + 1 - 1) with i by lia.
      - destruct (IH (i + 2) ltac:(lia) Hq Hs k) as [? ?]; [lia|done|].
        split; [lia|done]. }
    destruct (x =? q)%char eqn:Eq.
    { intros [= <- <-] k Hk. lia. }
    apply ascii_eqb_false in Eq. intros Hs k Hk Hkq.
    destruct (decide (k = i)) as [->|]; [congruence|].
    destruct (IH (i + 1) ltac:(lia) Hq Hs k) as [? ?]; [lia|done|].
    split; [lia|done].
Qed.

Lemma is_quote_not_backslash q : is_quote q = true → q ≠ backslash.
Proof. intros H ->. discriminate. Qed.

(** X1: in the doubled dialect the span ends at the first doubled marker
    after the opening one: no two adjacent double quotes stand between the
    markers, the content holds no two adjacent double quotes and does not
    end with a double quote. *)
Theorem doubled_content_has_no_marker (s : text) (i e : nat) (content : text) :
  _scan_quoted s i = Ok (Some (e, content)) →
  doubled_at s i →
  (∀ j, i + 2 ≤ j < e - 2 → ¬ doubled_at s j)
  ∧ (∀ k, ¬ doubled_at content k)
  ∧ last content ≠ Some dquote.
Proof.
  intros Hs Hd.
  destruct (scan_quoted_cases s i) as [[_ H]|[[_ H]|(q & Hq & Hiq & Hnd & H)]];
    [congruence| |done].
  rewrite H in Hs.
  destruct (scan_doubled_spec (length s) s (i + 2) (i + 2)) as
    [[Hn Hno]|(j & Hj & Hlen & Hc & Hmin & Hr)]; [lia|congruence|].
  rewrite Hr in Hs. injection Hs as <- <-.
  replace (j + 2 - 2) with j by lia. split_and!.
  - done.
  - intros k [H1 H2]. apply slice_lookup_Some in H1 as [? H1], H2 as [? H2].
    apply (Hmin (i + 2 + k)); [lia|]. split; [done|].
    by replace (i + 2 + k + 1) with (i + 2 + (k + 1)) by lia.
  - rewrite last_lookup, slice_length by lia. intros Hl.
    apply slice_lookup_Some in Hl as [Hlt Hl].
    apply (Hmin (i + 2 + pred (j - (i + 2)))); [lia|]. split; [done|].
    destruct Hc as [Hc _]. by replace (i + 2 + pred (j - (i + 2)) + 1) with j by lia.
Qed.

Lemma doubled_content_has_no_marker_witness :
  _scan_quoted sample_doubled 4 = Ok (Some (16, str "a(?<x>b)"))
  ∧ doubled_at sample_doubled 4
  ∧ (∀ j, 4 + 2 ≤ j < 16 - 2 → ¬ doubled_at sample_doubled j)
  ∧ (∀ k, ¬ doubled_at (str "a(?<x>b)") k)
  ∧ last (str "a(?<x>b)") ≠ Some dquote.
Proof.
  assert (doubled_at sample_doubled 4) as Hd by (split; reflexivity).
  split; [reflexivity|]. split; [exact Hd|].
  exact (doubled_content_has_no_marker sample_doubled 4 16 (str "a(?<x>b)") eq_refl Hd).
Defined.

(** X2: in the standard dialect every occurrence of the delimiting quote
    inside the content is directly preceded by a backslash in the content. *)
Theorem standard_content_delimiters_escaped (s : text) (i e : nat) (content : text) (q : ascii) :
  _scan_quoted s i = Ok (Some (e, content)) →
  ¬ doubled_at s i →
  s !! i = Some q →
  ∀ k, content !! k = Some q → 0 < k ∧ content !! (k - 1) = Some backslash.
Proof.
  intros Hs Hnd Hq k Hk.
  destruct (scan_quoted_cases s i) as [[_ H]|[[Hd _]|(q' & Hq' & Hiq & _ & H)]];
    [congruence|done|].
  assert (q' = q) as -> by congruence. rewrite H in Hs.
  destruct (scan_standard_spec (length s) s q (i + 1) (i + 1)) as
    [Hn|(j & Hj & Hjq & Hr)]; [lia|congruence|].
  pose proof Hs as Hs'. rewrite Hr in Hs'. injection Hs' as <- <-.
  apply slice_lookup_Some in Hk as [Hlt Hk].
  destruct (scan_standard_escaped _ _ _ _ _ _ _ (Nat.le_sub_l _ _)
              (is_quote_not_backslash _ Hiq) Hs (i + 1 + k)) as [Hgt Hb];
    [lia|done|].
  split; [lia|]. apply slice_lookup_Some. split; [lia|].
  by replace (i + 1 + (k - 1)) with (i + 1 + k - 1) by lia.
Qed.

Lemma standard_content_delimiters_escaped_witness :
  _scan_quoted sample_escaped 0
    = Ok (Some (6, str "a" ++ [backslash; dquote] ++ str "b"))
  ∧ ¬ doubled_at sample_escaped 0
  ∧ ∀ k, (str "a" ++ [backslash; dquote] ++ str "b") !! k = Some dquote →
         0 < k ∧ (str "a" ++ [backslash; dquote] ++ str "b") !! (k - 1) = Some backslash.
Proof.
  assert (¬ doubled_at sample_escaped 0) as Hnd by (intros [_ H]; discriminate H).
  split; [reflexivity|]. split; [exact Hnd|].
  exact (standard_content_delimiters_escaped sample_escaped 0 6 _ dquote eq_refl Hnd eq_refl).
Defined.

Lemma find_all_quoted_loop_spec fuel (s : text) i out :
  length s - i ≤ fuel →
  ∃ res, find_all_quoted_loop fuel s i out = Ok (out ++ res)
    ∧ spans_chain i res
    ∧ Forall (span_scanned s) res
    ∧ (∀ j c, i ≤ j → ¬ covered res j → s !! j = Some c → is_quote c = true →
         _scan_quoted s j = Ok None).
Proof.
  revert i out. induction fuel as [|fuel IH]; intros i out Hfuel; simpl.
  - destruct (Nat.ltb_spec i (length s)); [lia|].
    exists []. rewrite app_nil_r. split_and!; try done.
    intros j c Hj _ Hc. apply lookup_lt_Some in Hc. lia.
  - destruct (Nat.ltb_spec i (length s)) as [Hlt|Hge].
    2:{ exists []. rewrite app_nil_r. split_and!; try done.
        intros j c Hj _ Hc. apply lookup_lt_Some in Hc. lia. }
    destruct (getc_lt s i Hlt) as (c & Hc & ->). simpl.
    destruct (is_quote c) eqn:Eq.
    + destruct (scan_quoted_ok s i) as (r & Hscan & Hr). rewrite Hscan. simpl.
      destruct r as [[e content]|].
      * destruct (IH e (out ++ [(i, e, content)])) as (res & -> & Hch & Hall & Hcmp); [lia|].
        exists ((i, e, content) :: res). rewrite <- app_assoc. split_and!; try done.
        -- simpl. split_and!; [lia|lia|done].
        -- by constructor.
        -- intros j c' Hj Hnc Hc' Hq'.
           destruct (decide (j < e)) as [Hlt'|Hge'].
           ++ exfalso. apply Hnc. exists (i, e, content). split; [left|simpl; lia].
           ++ apply (Hcmp j c'); try done; [lia|].
              intros (sp & Hin & Hsp). apply Hnc. exists sp. split; [by right|done].
      * destruct (IH (i + 1) out) as (res & -> & Hch & Hall & Hcmp); [lia|].
        exists res. split_and!; try done.
        -- destruct res as [|sp res]; [done|]. simpl in *. split_and!; try tauto. lia.
        -- intros j c' Hj Hnc Hc' Hq'.
           destruct (decide (j = i)) as [->|]; [done|]. apply (Hcmp j c'); try done. lia.
    + destruct (IH (i + 1) out) as (res & -> & Hch & Hall & Hcmp); [lia|].
      exists res. split_and!; try done.
      -- destruct res as [|sp res]; [done|]. simpl in *. split_and!; try tauto. lia.
      -- intros j c' Hj Hnc Hc' Hq'.
         destruct (decide (j = i)) as [->|]; [congruence|]. apply (Hcmp j c'); try done. lia.
Qed.

(** X3: [_find_all_quoted] always returns; its spans are each what the
    scanner returns at the span's start, end within the string, and follow
    one another from left to right without overlap. *)
Theorem find_all_quoted_spans (s : text) :
  ∃ out, _find_all_quoted s = Ok out
    ∧ spans_chain 0 out
    ∧ Forall (fun sp => span_scanned s sp ∧ sp.1.2 ≤ length s) out.
Proof.
  destruct (find_all_quoted_loop_spec (length s) s 0 []) as (res & H & Hch & Hall & _); [lia|].
  exists res. split_and!; try done.
  eapply Forall_impl; [exact Hall|]. intros [[i e] c] Hsp. split; [done|].
  unfold span_scanned in Hsp. simpl in *.
  destruct (scan_quoted_ok s i) as (r & Hr & Hb). rewrite Hr in Hsp.
  injection Hsp as ->. lia.
Qed.

(** X4: [_find_all_quoted] misses no span: at a quote character that lies
    outside every returned span the scanner finds no span. *)
Theorem find_all_quoted_complete (s : text) (out : list (nat * nat * text))
    (j : nat) (c : ascii) :
  _find_all_quoted s = Ok out →
  s !! j = Some c → is_quote c = true →
  ¬ covered out j →
  _scan_quoted s j = Ok None.
Proof.
  intros Hrun Hc Hq Hnc.
  destruct (find_all_quoted_loop_spec (length s) s 0 []) as (res & H & _ & _ & Hcmp); [lia|].
  unfold _find_all_quoted in Hrun. rewrite H in Hrun. injection Hrun as <-.
  apply (Hcmp j c); try done. lia.
Qed.

Lemma find_all_quoted_complete_witness :
  _find_all_quoted sample_unterminated = Ok []
  ∧ ¬ covered [] 4
  ∧ _scan_quoted sample_unterminated 4 = Ok None.
Proof.
  assert (¬ covered [] 4) as Hnc.
  { intros (sp & Hin & _). inversion Hin. }
  split; [reflexivity|]. split; [exact Hnc|].
  exact (find_all_quoted_complete sample_unterminated [] 4 dquote eq_refl eq_refl eq_refl Hnc).
Defined.

Lemma enumerate_cons {A} start (x : A) l :
  enumerate start (x :: l) = (start, x) :: enumerate (S start) l.
Proof. reflexivity. Qed.

Lemma token_yield_shape (line : text) start toks per :
  Forall2 (token_yield line) (enumerate start toks) per →
  Forall rex_shaped (concat per)
  ∧ Forall (fun it => start ≤ Item.cmd_index_on_line it < start + length toks) (concat per)
  ∧ StronglySorted lt (Item.cmd_index_on_line <$> concat per)
  ∧ length (concat per) ≤ length (filter is_rex_token toks).
Proof.
  revert start per. induction toks as [|tok toks IH]; intros start per HF.
  - apply Forall2_nil_inv_l in HF as ->. simpl. split_and!; constructor.
  - rewrite enumerate_cons in HF. apply Forall2_cons_inv_l in HF as (items & per' & Hy & HF & ->).
    destruct (IH _ _ HF) as (Hsh & Hidx & Hsorted & Hlen). clear IH.
    assert (Forall (fun it => start ≤ Item.cmd_index_on_line it < start + length (tok :: toks))
              (concat per')) as Hidx'.
    { eapply Forall_impl; [exact Hidx|]. simpl. intros; lia. }
    rewrite filter_cons. unfold token_yield in Hy. cbn [fst snd] in Hy.
    change (tok.1.1 = str "rex") with (is_rex_token tok) in Hy.
    destruct (decide (is_rex_token tok)) as [Hrex|Hne]; [|subst items; done].
    destruct Hy as (j & _ & [[-> _]|(en & content & _ & _ & _ & ->)]).
    { cbn [concat app length]. split_and!; [done|exact Hidx'|done|lia]. }
    cbn [concat app length fmap list_fmap]. split_and!.
    + constructor; [done|done].
    + constructor; [simpl; lia|exact Hidx'].
    + constructor; [done|]. apply Forall_fmap.
      eapply Forall_impl; [exact Hidx|]. simpl. intros; lia.
    + lia.
Qed.

Lemma rex_items_shape (line : text) :
  ∃ items, extract_from_rex line = Ok items
    ∧ Forall rex_shaped items
    ∧ Forall (fun it => 1 ≤ Item.cmd_index_on_line it ≤ length (_iter_command_tokens line)) items
    ∧ StronglySorted lt (Item.cmd_index_on_line <$> items)
    ∧ length items ≤ length (filter is_rex_token (_iter_command_tokens line)).
Proof.
  destruct (rex_loop_spec line (enumerate 1 (_iter_command_tokens line)) [])
    as (per & H & HF); [apply enumerate_tokens_bounds|].
  destruct (token_yield_shape _ _ _ _ HF) as (Hsh & Hidx & Hs & Hlen).
  exists (concat per). split_and!; try done.
  eapply Forall_impl; [exact Hidx|]. simpl. intros; lia.
Qed.

Lemma StronglySorted_lt_NoDup (l : list nat) : StronglySorted lt l → NoDup l.
Proof.
  induction 1 as [|x l Hl IH Hx]; constructor; [|done].
  intros Hin. apply (proj1 (Forall_forall _ _) Hx) in Hin. lia.
Qed.

Lemma distinct_commands_sorted items :
  StronglySorted lt (Item.cmd_index_on_line <$> items) →
  distinct_commands items = length items.
Proof.
  intros Hs. unfold distinct_commands.
  rewrite size_list_to_set by by apply StronglySorted_lt_NoDup.
  by rewrite length_fmap.
Qed.

(** X5: the records of [extract_from_rex] all have command rex, an empty
    field and pattern index 1; their command indices are strictly increasing
    and range over the numbers of the line's tokens, so the number of
    distinct command indices is the number of records; and there are no more
    records than rex tokens. *)
Theorem extract_from_rex_records (line : text) :
  ∃ items, extract_from_rex line = Ok items
    ∧ Forall rex_shaped items
    ∧ Forall (fun it => 1 ≤ Item.cmd_index_on_line it ≤ length (_iter_command_tokens line)) items
    ∧ StronglySorted lt (Item.cmd_index_on_line <$> items)
    ∧ distinct_commands items = length items
    ∧ length items ≤ length (filter is_rex_token (_iter_command_tokens line)).
Proof.
  destruct (rex_items_shape line) as (items & H & Hsh & Hidx & Hs & Hlen).
  exists items. split_and!; try done. by apply distinct_commands_sorted.
Qed.

Lemma sublist_fmap_fst {A B} (l1 l2 : list (A * B)) :
  sublist l1 l2 → sublist (l1.*1) (l2.*1).
Proof. induction 1; simpl; by constructor. Qed.

Lemma detect_features_sublist pattern : sublist (detect_features pattern) catalog.
Proof. unfold detect_features, catalog. apply sublist_fmap_fst, sublist_filter. Qed.

Lemma catalog_NoDup : NoDup catalog.
Proof. apply (bool_decide_unpack _). vm_compute. reflexivity. Qed.

Lemma detect_features_NoDup pattern : NoDup (detect_features pattern).
Proof. exact (sublist_NoDup _ _ catalog_NoDup (detect_features_sublist pattern)). Qed.

Lemma insert_sorted_Permutation x l : insert_sorted x l ≡ₚ x :: l.
Proof.
  induction l as [|y l IH]; simpl; [done|].
  destruct (String.leb x y); [done|]. rewrite IH. apply Permutation_swap.
Qed.

Lemma sorted_Permutation l : sorted l ≡ₚ l.
Proof.
  induction l as [|x l IH]; simpl; [done|].
  by rewrite insert_sorted_Permutation, IH.
Qed.

Lemma sorted_NoDup l : NoDup l → NoDup (sorted l).
Proof. intros H. by rewrite sorted_Permutation. Qed.

Lemma sorted_nil_iff l : sorted l = [] ↔ l = [].
Proof.
  split; [|by intros ->]. intros H.
  apply length_zero_iff_nil. rewrite <- (sorted_length l), H. done.
Qed.

(** The incompatibility table of an engine. *)

(** X6: [incompatible_for] raises ValueError for any engine other than java
    and lucene; for these two the offending list is in ascending order and
    is a rearrangement of the given features that belong to the engine's
    table, and the flag says whether that list is non-empty. *)
Theorem incompatible_for_outcome (engine : string) (features : list string) :
  match table_of engine with
  | None =>
      incompatible_for engine features
      = Raise (ValueError ("Unknown engine: " ++ engine))
  | Some table =>
      ∃ bad, incompatible_for engine features = Ok (bool_decide (bad ≠ []), bad)
             ∧ ascending bad
             ∧ bad ≡ₚ filter (fun f => f ∈ table) features
  end.
Proof.
  unfold table_of, incompatible_for.
  destruct (String.eqb engine "java"); [|destruct (String.eqb engine "lucene"); [|done]].
  - eexists. split_and!; [|apply sorted_ascending|apply sorted_Permutation].
    do 2 f_equal. by destruct (sorted _).
  - eexists. split_and!; [|apply sorted_ascending|apply sorted_Permutation].
    do 2 f_equal. by destruct (sorted _).
Qed.

Lemma exec_must_contain ic p r (s : text) (st st' : mstate) :
  (∀ c x, p c = true → chr_has ic c x = true → p x = true) →
  st' ∈ exec ic r s st → must_contain p r = true → ∃ c, c ∈ s ∧ p c = true.
Proof.
  intros Hp. revert st st'.
  induction r as [|c'|neg cs|r1 IH1 r2 IH2|r1 IH1 r2 IH2|r1 IH1| | |r1 IH1| | | |];
    intros st st' Hin Hm; simpl in Hin, Hm; try done.
  - elem_cases Hin. match goal with H : s !! _ = Some ?x |- _ =>
      exists x; split; [by eapply list_elem_of_lookup_2|by eapply Hp] end.
  - apply list_elem_of_bind in Hin as (st1 & H2 & H1).
    apply orb_true_iff in Hm as [Hm|Hm]; eauto.
  - apply andb_true_iff in Hm as [Hm1 Hm2].
    apply elem_of_app in Hin as [H|H]; eauto.
  - apply list_elem_of_fmap in Hin as (st1 & -> & H1). eauto.
Qed.

Lemma search_must_contain ic p r (s : text) :
  (∀ c x, p c = true → chr_has ic c x = true → p x = true) →
  must_contain p r = true → is_Some (search ic r s) → ∃ c, c ∈ s ∧ p c = true.
Proof.
  intros Hp Hm [m Hs]. apply search_from_spec in Hs as [_ Hs].
  by eapply exec_must_contain.
Qed.

Lemma chr_has_exact c x : chr_has false c x = true → x = c.
Proof. unfold chr_has. apply ascii_eqb_true. Qed.

Lemma detectors_need_marker :
  Forall (fun d : string * regex => must_contain is_marker d.2 = true) DETECTORS.
Proof. apply (bool_decide_unpack _). vm_compute. exact I. Qed.

Lemma filter_none {A} (P : A → Prop) `{!∀ x, Decision (P x)} (l : list A) :
  Forall (fun x => ¬ P x) l → filter P l = [].
Proof.
  induction 1 as [|x l Hx Hl IH]; [done|]. rewrite filter_cons. by case_decide.
Qed.

Lemma plain_no_features pattern : plain pattern → detect_features pattern = [].
Proof.
  intros Hp. unfold detect_features.
  rewrite filter_none; [done|].
  eapply Forall_impl; [exact detectors_need_marker|].
  intros d Hd Hs. simpl in Hd.
  destruct (search_must_contain false is_marker d.2 pattern) as (c & Hc & Hm); [|exact Hd|exact Hs|].
  { intros c x Hc Hx. by rewrite (chr_has_exact _ _ Hx). }
  apply (proj1 (Forall_forall _ _) Hp) in Hc. congruence.
Qed.

(** X7: a pattern without parenthesis, backslash or plus sign has no feature
    detected and is classified compatible with both engines. *)
Theorem plain_pattern_portable (pattern : text) :
  plain pattern →
  detect_features pattern = []
  ∧ incompatible_for "java" (detect_features pattern) = Ok (false, [])
  ∧ incompatible_for "lucene" (detect_features pattern) = Ok (false, []).
Proof.
  intros Hp. rewrite (plain_no_features _ Hp). split_and!; reflexivity.
Qed.

Lemma plain_pattern_portable_witness :
  plain (str "abc")
  ∧ detect_features (str "abc") = []
  ∧ incompatible_for "java" (detect_features (str "abc")) = Ok (false, [])
  ∧ incompatible_for "lucene" (detect_features (str "abc")) = Ok (false, []).
Proof.
  assert (plain (str "abc")) as Hp by (repeat constructor).
  split; [exact Hp|]. exact (plain_pattern_portable (str "abc") Hp).
Defined.

Lemma lookup_foldl_bump_notin (l : list string) (m : gmap string nat) k :
  k ∉ l → foldl bump m l !! k = m !! k.
Proof.
  revert m. induction l as [|x l IH]; intros m Hk; simpl; [done|].
  apply not_elem_of_cons in Hk as [Hne Hk]. rewrite IH by done.
  unfold bump. by rewrite lookup_insert_ne.
Qed.

Lemma lookup_foldl_bump_in (l : list string) (m : gmap string nat) k :
  NoDup l → k ∈ l → foldl bump m l !! k = Some (default 0 (m !! k) + 1).
Proof.
  revert m. induction l as [|x l IH]; intros m Hnd Hk; simpl.
  { by apply elem_of_nil in Hk. }
  apply NoDup_cons in Hnd as [Hx Hnd].
  apply elem_of_cons in Hk as [->|Hk].
  - rewrite lookup_foldl_bump_notin by done. unfold bump. by rewrite lookup_insert_eq.
  - rewrite IH by done. unfold bump. rewrite lookup_insert_ne; [done|]. by intros ->.
Qed.

Lemma counts_bounded_bump table cnt counts (l : list string) :
  NoDup l → (∀ k, k ∈ l → k ∈ table) →
  counts_bounded table cnt counts →
  counts_bounded table (cnt + 1) (foldl bump counts l).
Proof.
  intros Hnd Hl Hb key v Hv.
  destruct (decide (key ∈ l)) as [Hin|Hnin].
  - rewrite lookup_foldl_bump_in in Hv by done. injection Hv as <-.
    split; [by apply Hl|]. destruct (counts !! key) as [w|] eqn:Hw; simpl; [|lia].
    destruct (Hb key w Hw). lia.
  - rewrite lookup_foldl_bump_notin in Hv by done. destruct (Hb key v Hv). split; [done|lia].
Qed.

Lemma offending_java_NoDup pattern :
  NoDup (offending "java" pattern) ∧ ∀ k, k ∈ offending "java" pattern → k ∈ JAVA_INCOMPATIBLE.
Proof.
  rewrite offending_java. split.
  - apply sorted_NoDup, NoDup_filter, detect_features_NoDup.
  - intros k Hk. apply sorted_elem_of, list_elem_of_filter in Hk. tauto.
Qed.

Lemma offending_lucene_NoDup pattern :
  NoDup (offending "lucene" pattern)
  ∧ ∀ k, k ∈ offending "lucene" pattern → k ∈ LUCENE_INCOMPATIBLE.
Proof.
  rewrite offending_lucene. split.
  - apply sorted_NoDup, NoDup_filter, detect_features_NoDup.
  - intros k Hk. apply sorted_elem_of, list_elem_of_filter in Hk. tauto.
Qed.

Lemma offending_java_le_lucene pattern :
  length (offending "java" pattern) ≤ length (offending "lucene" pattern).
Proof.
  rewrite offending_java, offending_lucene.
  apply sublist_length, sorted_sublist, filter_sublist_mono.
  intros f. apply java_subset_lucene.
Qed.

(** What the totals of the counters other than the engines' are after one
    more record. *)

Lemma analyze_item_delta i line st item :
  ∃ t', analyze_item i line st item = Ok (st.1 ++ [row_of i line item], t')
    ∧ Totals.total_patterns t' = Totals.total_patterns st.2 + 1
    ∧ same_line_totals st.2 t'
    ∧ (engines_bounded st.2 → engines_bounded t').
Proof.
  pose proof (offending_java (Item.pattern item)) as Hoj.
  pose proof (offending_lucene (Item.pattern item)) as Hol.
  unfold analyze_item. rewrite incompatible_for_java, incompatible_for_lucene.
  rewrite <- Hoj, <- Hol. clear Hoj Hol.
  cbn [mbind res_bind fst snd]. eexists. split; [reflexivity|].
  destruct (offending_java_NoDup (Item.pattern item)) as [Hjn Hjt].
  destruct (offending_lucene_NoDup (Item.pattern item)) as [Hln Hlt].
  destruct (0 <? length (offending "java" (Item.pattern item)));
    destruct (0 <? length (offending "lucene" (Item.pattern item)));
    totals_simpl; (split_and!; [done|by split_and!|]);
    intros [Hbj Hbl]; split; totals_simpl;
    first [ by apply counts_bounded_bump | done ].
Qed.

Lemma foldM_analyze_item i line items st :
  ∃ t', foldM (analyze_item i line) st items = Ok (st.1 ++ (row_of i line <$> items), t')
    ∧ Totals.total_patterns t' = Totals.total_patterns st.2 + length items
    ∧ same_line_totals st.2 t'
    ∧ (engines_bounded st.2 → engines_bounded t').
Proof.
  revert st. induction items as [|item items IH]; intros st; cbn [foldM].
  - exists st.2. rewrite app_nil_r. destruct st. split_and!; try done; simpl; lia.
  - destruct (analyze_item_delta i line st item) as (t1 & -> & Htp & (Hl & Hr & Hg) & Hb).
    cbn [mbind res_bind].
    destruct (IH (st.1 ++ [row_of i line item], t1)) as (t' & -> & Htp' & (Hl' & Hr' & Hg') & Hb').
    exists t'. cbn [fst snd] in *. rewrite <- app_assoc. split_and!; try done.
    + simpl. lia.
    + split_and!; congruence.
    + auto.
Qed.

Lemma regex_loop_cmd fuel (line : text) pos cmd_index out out' :
  Forall (fun it => Item.cmd it = "regex"%string) out →
  regex_loop fuel line pos cmd_index out = Ok out' →
  Forall (fun it => Item.cmd it = "regex"%string) out'.
Proof.
  revert pos cmd_index out.
  induction fuel as [|fuel IH]; intros pos cmd_index out Hout; cbn [regex_loop];
    destruct (search true REGEX_CMD (drop pos line)) as [m|]; try done;
    try (by intros [= <-]).
  cbv zeta.
  match goal with |- context [_find_all_quoted ?b] =>
    destruct (find_all_quoted_total b) as [quotes ->] end.
  cbn [mbind res_bind]. apply IH.
  apply Forall_app. split; [done|]. apply Forall_fmap. by apply Forall_true.
Qed.

Lemma extract_from_regex_cmd (line : text) items :
  extract_from_regex line = Ok items →
  Forall (fun it => Item.cmd it = "regex"%string) items.
Proof. apply regex_loop_cmd. constructor. Qed.

Lemma size_list_to_set_le (l : list nat) : size (list_to_set l : gset nat) ≤ length l.
Proof.
  induction l as [|x l IH].
  - rewrite list_to_set_nil, size_empty. done.
  - rewrite list_to_set_cons. cbn [length].
    destruct (decide (x ∈ (list_to_set l : gset nat))) as [Hin|Hnin].
    + rewrite (subseteq_union_1_L {[x]}) by (by apply singleton_subseteq_l). lia.
    + rewrite size_union by (by apply disjoint_singleton_l). rewrite size_singleton. lia.
Qed.

Lemma distinct_commands_le items : distinct_commands items ≤ length items.
Proof.
  unfold distinct_commands. rewrite <- (length_fmap Item.cmd_index_on_line).
  apply size_list_to_set_le.
Qed.

Lemma filter_rex_rows i line rex_items regex_items :
  Forall rex_shaped rex_items →
  Forall (fun it => Item.cmd it = "regex"%string) regex_items →
  length (filter is_rex_row (row_of i line <$> (rex_items ++ regex_items))) = length rex_items
  ∧ length (filter is_regex_row (row_of i line <$> (rex_items ++ regex_items)))
    = length regex_items.
Proof.
  intros Hrex Hregex. rewrite fmap_app, !filter_app, !length_app.
  assert (∀ P `{!∀ r, Decision (P r)} (items : list Item.t),
            Forall (fun it => P (row_of i line it)) items →
            length (filter P (row_of i line <$> items)) = length items) as Hall.
  { intros P ? items. induction 1 as [|it items Hit _ IH]; [done|].
    rewrite fmap_cons, filter_cons, decide_True by done. simpl. by rewrite IH. }
  assert (∀ P `{!∀ r, Decision (P r)} (items : list Item.t),
            Forall (fun it => ¬ P (row_of i line it)) items →
            length (filter P (row_of i line <$> items)) = 0) as Hnone.
  { intros P ? items. induction 1 as [|it items Hit _ IH]; [done|].
    rewrite fmap_cons, filter_cons, decide_False by done. done. }
  rewrite (Hall is_rex_row), (Hnone is_rex_row), (Hnone is_regex_row), (Hall is_regex_row).
  - lia.
  - done.
  - eapply Forall_impl; [exact Hrex|]. intros it (Hc & _). unfold is_regex_row. simpl.
    rewrite Hc. done.
  - eapply Forall_impl; [exact Hregex|]. intros it Hc. unfold is_rex_row. simpl.
    rewrite Hc. done.
  - eapply Forall_impl; [exact Hrex|]. by intros it (Hc & _).
Qed.

Lemma nonblank_count raw :
  length (filter nonblank [raw]) = if forallb isspace (rstrip newline raw) then 0 else 1.
Proof.
  rewrite filter_cons, filter_nil. unfold nonblank.
  case_decide as H; rewrite H || (apply not_false_is_true in H; rewrite H); done.
Qed.

Lemma analyze_line_delta st (il : nat * text) :
  ∃ t', analyze_line st il = Ok (st.1 ++ line_rows il, t')
    ∧ Totals.lines t' = Totals.lines st.2 + length (filter nonblank [il.2])
    ∧ Totals.total_patterns t' = Totals.total_patterns st.2 + length (line_rows il)
    ∧ Totals.rex_commands t'
      = Totals.rex_commands st.2 + length (filter is_rex_row (line_rows il))
    ∧ Totals.regex_commands st.2 ≤ Totals.regex_commands t'
      ≤ Totals.regex_commands st.2 + length (filter is_regex_row (line_rows il))
    ∧ (engines_bounded st.2 → engines_bounded t').
Proof.
  destruct il as [i raw]. unfold analyze_line, line_rows, line_items. cbn [fst snd].
  rewrite nonblank_count.
  destruct (forallb isspace (rstrip newline raw)) eqn:Eb.
  { exists st.2. rewrite app_nil_r. destruct st.
    simpl. split_and!; try done; lia. }
  destruct (rex_items_shape (rstrip newline raw))
    as (rex_items & Hrex & Hsh & _ & Hsorted & _).
  pose proof (distinct_commands_sorted _ Hsorted) as Hdist.
  destruct (extract_from_regex_total (rstrip newline raw)) as [regex_items Hregex].
  rewrite Hrex, Hregex. cbn [mbind res_bind].
  pose proof (extract_from_regex_cmd _ _ Hregex) as Hcmd.
  destruct (filter_rex_rows i (rstrip newline raw) _ _ Hsh Hcmd) as [Hfr Hfg].
  rewrite Hfr, Hfg.
  match goal with |- context [foldM _ ?b _] =>
    destruct (foldM_analyze_item i (rstrip newline raw) (rex_items ++ regex_items) b)
      as (t' & -> & Htp & (Hl & Hr & Hg) & Hb) end.
  exists t'. cbn [fst snd] in *. rewrite length_fmap.
  pose proof (distinct_commands_le regex_items).
  split; [done|].
  destruct rex_items, regex_items; totals_simpl; simpl in *;
    (split_and!; [lia|lia|lia|lia|lia|]); intros Hbd; apply Hb;
    destruct Hbd; split; totals_simpl; done.
Qed.

Lemma rows_from_cons start raw l :
  rows_from start (raw :: l) = line_rows (start, raw) ++ rows_from (S start) l.
Proof. reflexivity. Qed.

Lemma analyze_lines_delta (l : list text) start st :
  ∃ t', foldM analyze_line st (enumerate start l) = Ok (st.1 ++ rows_from start l, t')
    ∧ Totals.lines t' = Totals.lines st.2 + length (filter nonblank l)
    ∧ Totals.total_patterns t' = Totals.total_patterns st.2 + length (rows_from start l)
    ∧ Totals.rex_commands t'
      = Totals.rex_commands st.2 + length (filter is_rex_row (rows_from start l))
    ∧ Totals.regex_commands st.2 ≤ Totals.regex_commands t'
      ≤ Totals.regex_commands st.2 + length (filter is_regex_row (rows_from start l))
    ∧ (engines_bounded st.2 → engines_bounded t').
Proof.
  revert start st. induction l as [|raw l IH]; intros start st.
  - exists st.2. cbn. rewrite app_nil_r. destruct st. simpl. split_and!; try done; lia.
  - rewrite enumerate_cons, rows_from_cons. cbn [foldM].
    destruct (analyze_line_delta st (start, raw)) as (t1 & -> & Hl & Htp & Hr & Hg & Hb).
    cbn [mbind res_bind].
    destruct (IH (S start) (st.1 ++ line_rows (start, raw), t1))
      as (t' & -> & Hl' & Htp' & Hr' & Hg' & Hb').
    exists t'. cbn [fst snd] in *.
    rewrite <- app_assoc, (filter_cons nonblank), !filter_app, !length_app.
    rewrite nonblank_count in Hl.
    assert (length (if decide (nonblank raw) then raw :: filter nonblank l
                    else filter nonblank l)
            = (if forallb isspace (rstrip newline raw) then 0 else 1)
              + length (filter nonblank l)) as ->.
    { unfold nonblank at 1. case_decide as H;
        rewrite H || (apply not_false_is_true in H; rewrite H); done. }
    split_and!; try done; try lia; auto.
Qed.

Lemma engines_bounded_init : engines_bounded Totals.init.
Proof. split; intros key v Hv; exfalso; exact (lookup_empty_Some key v Hv). Qed.

Lemma analyze_file_delta (f : list text) :
  ∃ totals, analyze_file f = Ok (rows_from 1 f, totals)
    ∧ Totals.lines totals = length (filter nonblank f)
    ∧ Totals.total_patterns totals = length (rows_from 1 f)
    ∧ Totals.rex_commands totals = length (filter is_rex_row (rows_from 1 f))
    ∧ Totals.regex_commands totals ≤ length (filter is_regex_row (rows_from 1 f))
    ∧ engines_bounded totals.
Proof.
  destruct (analyze_lines_delta f 1 ([], Totals.init)) as (t' & H & Hl & Htp & Hr & Hg & Hb).
  exists t'. cbn [fst snd app] in *. totals_simpl.
  split_and!; try done; try lia. apply Hb, engines_bounded_init.
Qed.

Lemma line_rows_number il : Forall (fun r => Row.line_number r = il.1) (line_rows il).
Proof.
  unfold line_rows. destruct (forallb isspace _); [constructor|].
  apply Forall_fmap, Forall_true. done.
Qed.

Lemma rows_from_numbers start (l : list text) :
  Forall (fun r => start ≤ Row.line_number r < start + length l) (rows_from start l)
  ∧ StronglySorted le (Row.line_number <$> rows_from start l).
Proof.
  revert start. induction l as [|raw l IH]; intros start.
  - split; constructor.
  - rewrite rows_from_cons. destruct (IH (S start)) as [Hb Hs].
    pose proof (line_rows_number (start, raw)) as Hn. cbn [fst] in Hn.
    split.
    + apply Forall_app. split.
      * eapply Forall_impl; [exact Hn|]. simpl. intros; lia.
      * eapply Forall_impl; [exact Hb|]. simpl. intros; lia.
    + rewrite fmap_app. induction Hn as [|r rs Hr Hrs IHr]; [done|].
      cbn. constructor; [done|]. apply Forall_app. split.
      * apply Forall_fmap. eapply Forall_impl; [exact Hrs|]. simpl. intros; lia.
      * apply Forall_fmap. eapply Forall_impl; [exact Hb|]. simpl. intros; lia.
Qed.

Lemma rows_from_flags start (l : list text) :
  Forall (fun r => Row.java_incompatible r = true → Row.lucene_incompatible r = true)
         (rows_from start l).
Proof.
  unfold rows_from. apply Forall_forall. intros r Hr.
  apply list_elem_of_bind in Hr as (il & Hr & _). unfold line_rows in Hr.
  destruct (forallb isspace _); [by apply elem_of_nil in Hr|].
  apply list_elem_of_fmap in Hr as (it & -> & _). simpl.
  rewrite !Nat.ltb_lt. pose proof (offending_java_le_lucene (Item.pattern it)). lia.
Qed.

Lemma filter_length_mono {A} (P Q : A → Prop) `{!∀ x, Decision (P x)}
    `{!∀ x, Decision (Q x)} (l : list A) :
  Forall (fun x => P x → Q x) l → length (filter P l) ≤ length (filter Q l).
Proof.
  induction 1 as [|x l Hx _ IH]; [done|]. rewrite !filter_cons.
  destruct (decide (P x)); [rewrite decide_True by auto|destruct (decide (Q x))];
    simpl; lia.
Qed.

Lemma analyze_file_blank (f : list text) :
  Forall (fun raw => ¬ nonblank raw) f → rows_from 1 f = [] ∧ filter nonblank f = [].
Proof.
  intros Hb. split; [|by apply filter_none].
  generalize 1. induction Hb as [|raw l Hraw _ IH]; intros start; [done|].
  rewrite rows_from_cons, IH, app_nil_r. unfold line_rows. cbn [snd].
  unfold nonblank in Hraw. apply not_false_is_true in Hraw. by rewrite Hraw.
Qed.

Lemma exec_Lit ic (w : text) (s : text) (st : mstate) :
  exec ic (foldr (fun c r => Seq (Chr c) r) Eps w) s st
  = if lit_at ic w s st.1 then [(st.1 + length w, st.2)] else [].
Proof.
  revert st. induction w as [|c w IH]; intros [p cap]; cbn [foldr lit_at exec fst snd].
  - cbn. by rewrite Nat.add_0_r.
  - destruct (s !! p) as [x|]; [|done].
    destruct (chr_has ic c x); [|done]. cbn [andb mbind list_bind].
    rewrite IH. cbn [fst snd]. rewrite app_nil_r.
    destruct (lit_at ic w s (S p)); [|done].
    cbn [length]. by rewrite Nat.add_succ_r.
Qed.

Lemma set_has_word ic x : set_has ic false [Word] x = is_word x.
Proof.
  destruct x as [[] [] [] [] [] [] [] []]; destruct ic; reflexivity.
Qed.

Lemma exec_Seq ic r1 r2 (s : text) st :
  exec ic (Seq r1 r2) s st = exec ic r1 s st ≫= exec ic r2 s.
Proof. reflexivity. Qed.

Lemma exec_NotBehind_Word ic (s : text) (st : mstate) :
  exec ic (NotBehind [Word]) s st = if word_before s st.1 then [] else [st].
Proof.
  cbn [exec]. unfold word_before, word_at. destruct st.1 as [|p']; [done|].
  destruct (s !! p') as [x|]; [|done]. simpl from_option. by rewrite set_has_word.
Qed.

Lemma exec_NotAhead_Word ic (s : text) (st : mstate) :
  exec ic (NotAhead [Word]) s st = if word_at s st.1 then [] else [st].
Proof.
  cbn [exec]. unfold word_at.
  destruct (s !! st.1) as [x|]; [|done]. simpl from_option. by rewrite set_has_word.
Qed.

Lemma exec_keyword (kw : string) (s : text) (p : nat) cap :
  exec true (Cat [NotBehind [Word]; Lit kw; NotAhead [Word]]) s (p, cap)
  = if keyword_at kw s p then [(p + length (str kw), cap)] else [].
Proof.
  change (Cat [NotBehind [Word]; Lit kw; NotAhead [Word]])
    with (Seq (NotBehind [Word]) (Seq (Lit kw) (Seq (NotAhead [Word]) Eps))).
  unfold keyword_at. rewrite exec_Seq, exec_NotBehind_Word. cbn [fst].
  destruct (word_before s p); [done|].
  cbn [mbind list_bind negb andb]. rewrite app_nil_r, exec_Seq.
  unfold Lit. rewrite exec_Lit. cbn [fst snd]. fold (str kw).
  destruct (lit_at true (str kw) s p); [|done].
  cbn [mbind list_bind]. rewrite app_nil_r, exec_Seq, exec_NotAhead_Word. cbn [fst].
  destruct (word_at s (p + length (str kw))); done.
Qed.

(** A keyword text: lower-case word characters only. *)

Lemma is_word_lower x : is_word (lower_char x) = is_word x.
Proof. destruct x as [[] [] [] [] [] [] [] []]; reflexivity. Qed.

Lemma lit_at_spec ic (w : text) (s : text) p :
  lit_at ic w s p = true
  ↔ ∀ k c, w !! k = Some c → ∃ x, s !! (p + k) = Some x ∧ chr_has ic c x = true.
Proof.
  revert p. induction w as [|c w IH]; intros p; cbn [lit_at].
  - split; [|done]. intros _ k c Hk. by destruct k.
  - split.
    + destruct (s !! p) as [x|] eqn:Hx; [|done]. intros H.
      apply andb_true_iff in H as [Hc Hw]. intros [|k] c' Hk; simpl in Hk.
      * injection Hk as <-. exists x. by rewrite Nat.add_0_r.
      * destruct (proj1 (IH (S p)) Hw k c' Hk) as (y & Hy & Hcy).
        exists y. by rewrite Nat.add_succ_r.
    + intros H. destruct (H 0 c eq_refl) as (x & Hx & Hc).
      rewrite Nat.add_0_r in Hx. rewrite Hx, Hc. simpl. apply IH.
      intros k c' Hk. destruct (H (S k) c' Hk) as (y & Hy & Hcy).
      exists y. by rewrite Nat.add_succ_r in Hy.
Qed.

Lemma lit_at_word (w : text) (s : text) p k :
  low w → lit_at true w s p = true → k < length w → word_at s (p + k) = true.
Proof.
  intros Hlow Hlit Hk. destruct (lookup_lt_is_Some_2 w k Hk) as [c Hc].
  destruct (proj1 (lit_at_spec _ _ _ _) Hlit k c Hc) as (x & Hx & Hcx).
  unfold word_at. rewrite Hx. simpl. unfold chr_has in Hcx.
  apply ascii_eqb_true in Hcx.
  destruct (proj1 (Forall_forall _ _) Hlow c (list_elem_of_lookup_2 _ _ _ Hc)) as [Hl Hw].
  by rewrite <- is_word_lower, Hcx, Hl.
Qed.

Lemma lower_lookup (s : text) k : lower s !! k = lower_char <$> (s !! k).
Proof. unfold lower. revert k. induction s as [|x s IH]; intros [|k]; simpl; auto. Qed.

Lemma lit_at_lower (w : text) (s : text) p :
  low w → lit_at true w s p = true ↔ lower (slice s p (p + length w)) = w.
Proof.
  intros Hlow. rewrite lit_at_spec. split.
  - intros H. apply list_eq. intros k. rewrite lower_lookup.
    destruct (lookup k w) as [c|] eqn:Hc.
    + destruct (H k c Hc) as (x & Hx & Hcx).
      assert (lookup k (slice s p (p + length w)) = Some x) as Hs.
      { apply slice_lookup_Some. split; [|done]. apply lookup_lt_Some in Hc. lia. }
      etrans; [exact (f_equal (fmap lower_char) Hs)|]. etrans; [|symmetry; exact Hc].
      cbn [fmap option_fmap option_map]. f_equal.
      unfold chr_has in Hcx. apply ascii_eqb_true in Hcx.
      destruct (proj1 (Forall_forall _ _) Hlow c (list_elem_of_lookup_2 _ _ _ Hc)) as [Hl _].
      by rewrite Hcx.
    + etrans; [|symmetry; exact Hc]. apply lookup_ge_None in Hc.
      destruct (lookup k (slice s p (p + length w))) as [x|] eqn:Hx.
      * apply slice_lookup_Some in Hx. lia.
      * first [done | etrans; [exact (f_equal (fmap (M:=option) lower_char) Hx)|done]].
  - intros H k c Hc.
    pose proof (lower_lookup (slice s p (p + length w)) k) as Hl.
    assert (lookup k (lower (slice s p (p + length w))) = Some c) as Hc'
      by (etrans; [exact (f_equal (lookup k) H)|exact Hc]).
    destruct (lookup k (slice s p (p + length w))) as [x|] eqn:Hx.
    + apply slice_lookup_Some in Hx as [_ Hx].
      exists x. split; [done|]. unfold chr_has. apply ascii_eqb_true.
      destruct (proj1 (Forall_forall _ _) Hlow c (list_elem_of_lookup_2 _ _ _ Hc)) as [Hlc _].
      assert (Some (lower_char x) = Some c) as [= Hxc]
        by (etrans; [symmetry; exact Hl|exact Hc']).
      by rewrite Hxc.
    + exfalso. assert (@None ascii = Some c) by (etrans; [symmetry; exact Hl|exact Hc']).
      done.
Qed.

Lemma low_rex : low (str "rex").
Proof. repeat constructor. Qed.

Lemma low_regex : low (str "regex").
Proof. repeat constructor. Qed.

Lemma keyword_at_whole_word (kw : string) (line : text) p :
  low (str kw) → keyword_at kw line p = true ↔ whole_word line (str kw) p.
Proof.
  intros Hlow. unfold keyword_at, whole_word.
  rewrite !andb_true_iff, !negb_true_iff, (lit_at_lower _ _ _ Hlow). tauto.
Qed.

Lemma keyword_rex_not_regex (line : text) p :
  keyword_at "rex" line p = true → keyword_at "regex" line p = false.
Proof.
  unfold keyword_at. rewrite !andb_true_iff, !negb_true_iff. intros [[_ _] Hafter].
  destruct (lit_at true (str "regex") line p) eqn:Hlit; [|by rewrite andb_false_r].
  pose proof (lit_at_word _ _ _ 3 low_regex Hlit ltac:(simpl; lia)) as Hw.
  simpl length in Hafter. congruence.
Qed.

Lemma keyword_inside (kw kw' : string) (line : text) p p' :
  low (str kw) → keyword_at kw line p = true →
  p < p' < p + length (str kw) → keyword_at kw' line p' = false.
Proof.
  intros Hlow Hk Hp. unfold keyword_at in *.
  apply andb_true_iff in Hk as [Hk _]. apply andb_true_iff in Hk as [_ Hlit].
  destruct p' as [|q]; [lia|]. cbn [word_before].
  pose proof (lit_at_word _ _ _ (q - p) Hlow Hlit ltac:(lia)) as Hw.
  replace (p + (q - p)) with q in Hw by lia. by rewrite Hw.
Qed.

Lemma exec_word_boundary (line : text) p :
  exec true WORD_BOUNDARY line (p, None)
  = (if keyword_at "rex" line p then [(p + 3, None)] else [])
    ++ (if keyword_at "regex" line p then [(p + 5, None)] else []).
Proof.
  unfold WORD_BOUNDARY. cbn [exec]. by rewrite !exec_keyword.
Qed.

Lemma exec_regex_cmd (line : text) p :
  exec true REGEX_CMD line (p, None)
  = if keyword_at "regex" line p then [(p + 5, None)] else [].
Proof. unfold REGEX_CMD. by rewrite exec_keyword. Qed.

Lemma omap_ext_in {A B} (f g : A → option B) (l : list A) :
  (∀ x, x ∈ l → f x = g x) → omap f l = omap g l.
Proof.
  induction l as [|x l IH]; intros H; [done|]. cbn.
  rewrite (H x) by left. rewrite IH; [done|]. intros y Hy. apply H. by right.
Qed.

Lemma finditer_from_omap ic r (s : text) a k from :
  (∀ p m, head (exec ic r s (p, None)) = Some m →
          ∀ p', p < p' < m.1 → exec ic r s (p', None) = []) →
  finditer_from ic r s (seq a k) from
  = omap (fun p => if p <? from then None
                   else (fun m => (p, m)) <$> head (exec ic r s (p, None))) (seq a k).
Proof.
  intros Hno. revert a from. induction k as [|k IH]; intros a from; [done|].
  cbn [seq finditer_from omap list_omap]. destruct (a <? from) eqn:Ea; [apply IH|].
  destruct (exec ic r s (a, None)) as [|m ms] eqn:He; cbn [head fmap option_fmap option_map].
  - apply IH.
  - f_equal. rewrite IH. apply omap_ext_in. intros p Hp. apply elem_of_seq in Hp.
    apply Nat.ltb_ge in Ea.
    assert ((p <? from) = false) as -> by (apply Nat.ltb_ge; lia).
    destruct (Nat.ltb_spec p m.1) as [Hlt|]; [|done].
    rewrite (Hno a m); [done| |lia]. by rewrite He.
Qed.

Lemma word_boundary_head (line : text) p :
  head (exec true WORD_BOUNDARY line (p, None))
  = (fun t : text * nat * nat => (t.2, @None (nat * nat))) <$> tok_at line p.
Proof.
  rewrite exec_word_boundary. unfold tok_at.
  destruct (keyword_at "rex" line p); [done|].
  destruct (keyword_at "regex" line p); done.
Qed.

Lemma tok_at_shape (line : text) p t :
  tok_at line p = Some t →
  t.1.2 = p ∧ t.2 = p + length t.1.1 ∧ (t.1.1 = str "rex" ∨ t.1.1 = str "regex")
  ∧ whole_word line t.1.1 p.
Proof.
  unfold tok_at. destruct (keyword_at "rex" line p) eqn:Hrex.
  { intros [= <-]. simpl. split_and!; try done; [by left|].
    by apply (keyword_at_whole_word "rex"); [apply low_rex|]. }
  destruct (keyword_at "regex" line p) eqn:Hregex; [|done].
  intros [= <-]. simpl. split_and!; try done; [by right|].
  by apply (keyword_at_whole_word "regex"); [apply low_regex|].
Qed.

Lemma tok_at_inside (line : text) p t p' :
  tok_at line p = Some t → p < p' < t.2 → tok_at line p' = None.
Proof.
  unfold tok_at at 1. intros Ht Hp.
  assert (∀ kw', keyword_at kw' line p' = false) as Hno.
  { intros kw'. destruct (keyword_at "rex" line p) eqn:Hrex.
    - injection Ht as <-. simpl in Hp.
      by apply (keyword_inside "rex" kw' line p p' low_rex).
    - destruct (keyword_at "regex" line p) eqn:Hregex; [|done].
      injection Ht as <-. simpl in Hp.
      by apply (keyword_inside "regex" kw' line p p' low_regex). }
  unfold tok_at. by rewrite !Hno.
Qed.

Lemma iter_command_tokens_omap (line : text) :
  _iter_command_tokens line = omap (tok_at line) (seq 0 (S (length line))).
Proof.
  unfold _iter_command_tokens, finditer. rewrite finditer_from_omap.
  - induction (seq 0 (S (length line))) as [|p l IH]; [done|].
    cbn [omap list_omap]. rewrite word_boundary_head.
    replace (p <? 0) with false by (symmetry; apply Nat.ltb_ge; lia).
    destruct (tok_at line p) as [t|] eqn:Ht; cbn [fmap option_fmap option_map]; [|done].
    rewrite fmap_cons, IH. f_equal.
    destruct (tok_at_shape _ _ _ Ht) as (Hs & He & _ & Hw & _).
    unfold m_start, m_end. cbn [fst snd]. destruct t as [[cmd s] e]. simpl in *.
    subst. by rewrite Hw.
  - intros p m Hm p' Hp'. rewrite word_boundary_head in Hm.
    destruct (tok_at line p) as [t|] eqn:Ht; [|done]. injection Hm as <-. simpl in Hp'.
    pose proof (tok_at_inside _ _ _ p' Ht Hp') as Hn.
    pose proof (word_boundary_head line p') as Hh. rewrite Hn in Hh.
    by destruct (exec true WORD_BOUNDARY line (p', None)).
Qed.

Lemma whole_word_in_line (line : text) (kw : text) s :
  kw ≠ [] → whole_word line kw s → s < length line.
Proof.
  intros Hne (Hl & _). destruct (decide (s < length line)) as [|Hge]; [done|].
  exfalso. apply Hne. rewrite <- Hl. unfold slice.
  rewrite drop_ge by lia. by rewrite take_nil.
Qed.

(** X8: the tokens of a line are exactly the whole-word occurrences, up to
    case, of rex and regex: the slice lower-cases to the keyword, no word
    character stands just before it or just after it, and the token ends
    where the keyword does. *)
Theorem tokens_are_whole_words (line : text) (cmd : text) (s e : nat) :
  (cmd, s, e) ∈ _iter_command_tokens line
  ↔ (cmd = str "rex" ∨ cmd = str "regex") ∧ e = s + length cmd ∧ whole_word line cmd s.
Proof.
  rewrite iter_command_tokens_omap, list_elem_of_omap. split.
  - intros (p & _ & Ht). destruct (tok_at_shape _ _ _ Ht) as (Hs & He & Hc & Hw).
    simpl in *. subst p. done.
  - intros (Hc & -> & Hw). exists s. split.
    + apply elem_of_seq. assert (s < length line); [|lia].
      apply (whole_word_in_line line cmd); [|done]. by destruct Hc as [->| ->].
    + unfold tok_at. destruct Hc as [->| ->].
      * by rewrite (proj2 (keyword_at_whole_word "rex" line s low_rex) Hw).
      * pose proof (proj2 (keyword_at_whole_word "regex" line s low_regex) Hw) as Hk.
        rewrite Hk. destruct (keyword_at "rex" line s) eqn:Hrex; [|done].
        apply keyword_rex_not_regex in Hrex. congruence.
Qed.

(** A token ends before the next one starts. *)

Lemma omap_tok_at_sorted (line : text) a k :
  StronglySorted token_before (omap (tok_at line) (seq a k))
  ∧ Forall (fun t : text * nat * nat => a ≤ t.1.2) (omap (tok_at line) (seq a k)).
Proof.
  revert a. induction k as [|k IH]; intros a; [split; constructor|].
  cbn [seq omap list_omap]. destruct (IH (S a)) as [Hs Hb].
  destruct (tok_at line a) as [t|] eqn:Ht.
  - destruct (tok_at_shape _ _ _ Ht) as (Hst & He & _). split.
    + constructor; [done|]. apply Forall_forall. intros t2 Hin.
      apply list_elem_of_omap in Hin as (p & Hp & Ht2). apply elem_of_seq in Hp.
      destruct (tok_at_shape _ _ _ Ht2) as (Hst2 & _). unfold token_before. rewrite Hst2.
      destruct (decide (t.2 ≤ p)) as [|Hlt]; [done|].
      rewrite (tok_at_inside line a t p Ht) in Ht2; [done|lia].
    + constructor; [lia|]. eapply Forall_impl; [exact Hb|]. simpl. intros; lia.
  - split; [done|]. eapply Forall_impl; [exact Hb|]. simpl. intros; lia.
Qed.

(** X9: the tokens of a line come from left to right and do not overlap:
    each ends before the later ones start. *)
Theorem tokens_ordered (line : text) :
  StronglySorted token_before (_iter_command_tokens line).
Proof. rewrite iter_command_tokens_omap. apply omap_tok_at_sorted. Qed.

Lemma lookup_drop_text (s : text) n i : (drop n s : text) !! i = s !! (n + i).
Proof. exact (lookup_drop s n i). Qed.

Lemma lit_at_drop ic (w : text) (s : text) n p :
  lit_at ic w (drop n s) p = lit_at ic w s (n + p).
Proof.
  revert p. induction w as [|c w IH]; intros p; cbn [lit_at]; [done|].
  rewrite lookup_drop_text, IH. by rewrite Nat.add_succ_r.
Qed.

Lemma word_at_drop (s : text) n p : word_at (drop n s) p = word_at s (n + p).
Proof. unfold word_at. by rewrite lookup_drop_text. Qed.

Lemma keyword_at_drop (kw : string) (line : text) pos p :
  low (str kw) → str kw ≠ [] →
  pos = 0 ∨ word_at line pos = false →
  keyword_at kw (drop pos line) p = keyword_at kw line (pos + p).
Proof.
  intros Hlow Hne Hinv. unfold keyword_at.
  rewrite lit_at_drop, word_at_drop, Nat.add_assoc.
  destruct p as [|q].
  - destruct Hinv as [->|Hw]; [done|]. rewrite Nat.add_0_r. cbn [word_before negb andb].
    destruct (lit_at true (str kw) line pos) eqn:Hlit; [|by rewrite andb_false_r].
    pose proof (lit_at_word _ _ _ 0 Hlow Hlit) as Hw'.
    rewrite Nat.add_0_r in Hw'. rewrite Hw' in Hw; [done|].
    destruct (str kw); [done|simpl; lia].
  - cbn [word_before]. rewrite word_at_drop, Nat.add_succ_r. done.
Qed.

Lemma search_from_seq ic r (s : text) a k :
  match search_from ic r s (seq a k) with
  | None => ∀ p, a ≤ p < a + k → exec ic r s (p, None) = []
  | Some m =>
      a ≤ m.1 < a + k ∧ head (exec ic r s (m.1, None)) = Some m.2
      ∧ ∀ p, a ≤ p < m.1 → exec ic r s (p, None) = []
  end.
Proof.
  revert a. induction k as [|k IH]; intros a; cbn [seq search_from].
  - intros p Hp. lia.
  - destruct (exec ic r s (a, None)) as [|m ms] eqn:He.
    + specialize (IH (S a)). destruct (search_from ic r s (seq (S a) k)) as [m|].
      * destruct IH as (Hb & Hh & Hno). split_and!; try lia; try done.
        intros p Hp. destruct (decide (p = a)) as [->|]; [exact He|]. apply Hno. lia.
      * intros p Hp. destruct (decide (p = a)) as [->|]; [exact He|]. apply IH. lia.
    + cbn [fst snd]. rewrite He. split_and!; try lia; try done.
Qed.

Lemma omap_seq_skip {B} (g : nat → option B) a b k :
  a ≤ b ≤ a + k → (∀ q, a ≤ q < b → g q = None) →
  omap g (seq a k) = omap g (seq b (a + k - b)).
Proof.
  revert a. induction k as [|k IH]; intros a Hb Hno.
  - replace (a + 0 - b) with 0 by lia. done.
  - destruct (decide (a = b)) as [->|Hne].
    + by replace (b + S k - b) with (S k) by lia.
    + cbn [seq omap list_omap]. rewrite Hno by lia. rewrite IH; [|lia|intros; apply Hno; lia].
      f_equal. f_equal. lia.
Qed.

Lemma regex_search_spec (line : text) pos :
  pos ≤ length line →
  pos = 0 ∨ word_at line pos = false →
  match search true REGEX_CMD (drop pos line) with
  | None => regex_ends line pos = []
  | Some m =>
      pos + m_end m ≤ length line
      ∧ word_at line (pos + m_end m) = false
      ∧ regex_ends line pos = (pos + m_end m) :: regex_ends line (pos + m_end m)
  end.
Proof.
  intros Hpos Hinv. unfold search, regex_ends. rewrite length_drop.
  assert (∀ p, exec true REGEX_CMD (drop pos line) (p, None)
               = if keyword_at "regex" line (pos + p) then [(p + 5, None)] else []) as Hex.
  { intros p. rewrite exec_regex_cmd, keyword_at_drop; [done|apply low_regex|done|done]. }
  pose proof (search_from_seq true REGEX_CMD (drop pos line) 0 (S (length line - pos))) as Hs.
  destruct (search_from true REGEX_CMD (drop pos line) (seq 0 (S (length line - pos))))
    as [[p m]|].
  - cbn [fst snd] in Hs. destruct Hs as (Hb & Hh & Hno). rewrite Hex in Hh.
    destruct (keyword_at "regex" line (pos + p)) eqn:Hk; [|done].
    injection Hh as <-. unfold m_end. cbn [fst snd].
    pose proof Hk as Hk'. unfold keyword_at in Hk'.
    apply andb_true_iff in Hk' as [Hk' Hafter]. apply andb_true_iff in Hk' as [_ Hlit].
    apply negb_true_iff in Hafter. simpl length in Hafter.
    pose proof (lit_at_word _ _ _ 4 low_regex Hlit ltac:(simpl; lia)) as Hw4.
    unfold word_at in Hw4. destruct (line !! (pos + p + 4)) as [x|] eqn:Hx; [|done].
    apply lookup_lt_Some in Hx.
    replace (pos + (p + 5)) with (pos + p + 5) by lia.
    split_and!; [lia|done|].
    rewrite (omap_seq_skip _ pos (pos + p)); [|lia|].
    2:{ intros q Hq. specialize (Hno (q - pos) ltac:(lia)). rewrite Hex in Hno.
        replace (pos + (q - pos)) with q in Hno by lia.
        by destruct (keyword_at "regex" line q). }
    replace (pos + (S (length line) - pos) - (pos + p)) with (S (length line - (pos + p)))
      by lia.
    cbn [seq omap list_omap]. rewrite Hk. f_equal.
    rewrite (omap_seq_skip _ (S (pos + p)) (pos + p + 5)); [|lia|].
    2:{ intros q Hq.
        rewrite (keyword_inside "regex" "regex" line (pos + p) q low_regex Hk); [done|].
        simpl. lia. }
    f_equal. f_equal. lia.
  - rewrite (omap_ext_in _ (fun _ => None)); [by induction (seq _ _)|].
    intros q Hq. apply elem_of_seq in Hq. specialize (Hs (q - pos) ltac:(lia)).
    rewrite Hex in Hs. replace (pos + (q - pos)) with q in Hs by lia.
    by destruct (keyword_at "regex" line q).
Qed.

Lemma regex_loop_spec fuel (line : text) pos cmd_index out :
  length line - pos ≤ fuel → pos ≤ length line →
  pos = 0 ∨ word_at line pos = false →
  regex_loop fuel line pos cmd_index out
  = Ok (out ++ concat ((fun ke => regex_records line ke.1 ke.2)
                         <$> enumerate (cmd_index + 1) (regex_ends line pos))).
Proof.
  revert pos cmd_index out. induction fuel as [|fuel IH];
    intros pos cmd_index out Hfuel Hpos Hinv; cbn [regex_loop];
    pose proof (regex_search_spec line pos Hpos Hinv) as Hs;
    pose proof (search_bounds true REGEX_CMD (drop pos line)) as Hb;
    destruct (search true REGEX_CMD (drop pos line)) as [m|];
    try (rewrite Hs; cbn; by rewrite app_nil_r);
    specialize (Hb m eq_refl); assert (min_len REGEX_CMD = 5) as Hmin by reflexivity;
    destruct Hs as (Hle & Hw & Hends); [lia|].
  cbv zeta. fold (regex_body line (pos + m_end m)).
  destruct (find_all_quoted_total (regex_body line (pos + m_end m))) as [quotes Hq].
  rewrite Hq. cbn [mbind res_bind].
  rewrite IH; [|lia|lia|by right].
  rewrite Hends, enumerate_cons, fmap_cons. cbn [concat fst snd].
  unfold regex_records at 2. rewrite Hq. rewrite <- app_assoc.
  by replace (S (cmd_index + 1)) with (cmd_index + 1 + 1) by lia.
Qed.

Lemma regex_ends_tokens_gen (line : text) (l : list nat) :
  (fun t : text * nat * nat => t.2) <$> filter is_regex_token (omap (tok_at line) l)
  = omap (fun p => if keyword_at "regex" line p then Some (p + 5) else None) l.
Proof.
  induction l as [|p l IH]; [done|]. cbn [omap list_omap]. unfold tok_at at 1.
  destruct (keyword_at "rex" line p) eqn:Hrex.
  - rewrite (keyword_rex_not_regex _ _ Hrex), filter_cons, decide_False; [done|].
    unfold is_regex_token. simpl. discriminate.
  - destruct (keyword_at "regex" line p); [|done].
    rewrite filter_cons, decide_True by done. rewrite fmap_cons, IH. done.
Qed.

Lemma regex_ends_tokens (line : text) :
  regex_ends line 0
  = (fun t : text * nat * nat => t.2) <$> filter is_regex_token (_iter_command_tokens line).
Proof.
  rewrite iter_command_tokens_omap, regex_ends_tokens_gen. unfold regex_ends.
  by rewrite Nat.sub_0_r.
Qed.

Lemma enumerate_fmap {A B} (f : A → B) start (l : list A) :
  enumerate start (f <$> l) = (fun kt => (kt.1, f kt.2)) <$> enumerate start l.
Proof.
  revert start. induction l as [|x l IH]; intros start; [done|].
  rewrite fmap_cons, !enumerate_cons, fmap_cons, IH. done.
Qed.

(** X10: [extract_from_regex] processes exactly the regex tokens that the
    tokenizer finds, in order: its result is, for the k-th regex token of the
    line, the records of the quoted spans of the body after that token, with
    command index k, pattern indices 1, 2, ... and the field resolved from
    that body. *)
Theorem extract_from_regex_by_token (line : text) :
  extract_from_regex line
  = Ok (concat ((fun kt : nat * (text * nat * nat) => regex_records line kt.1 kt.2.2)
                  <$> enumerate 1 (filter is_regex_token (_iter_command_tokens line)))).
Proof.
  unfold extract_from_regex.
  rewrite regex_loop_spec; [|lia|lia|by left].
  rewrite regex_ends_tokens, enumerate_fmap, <- list_fmap_compose. done.
Qed.

(** A record as [extract_from_regex] builds them for command [k]. *)

Lemma enumerate_index {A} start (l : list A) :
  Forall (fun kt => start ≤ kt.1 < start + length l) (enumerate start l).
Proof.
  revert start. induction l as [|x l IH]; intros start; [constructor|].
  rewrite enumerate_cons. constructor; [simpl; lia|].
  eapply Forall_impl; [apply (IH (S start))|]. simpl. intros; lia.
Qed.

Lemma regex_records_shape (line : text) k e : Forall (regex_shaped k) (regex_records line k e).
Proof.
  unfold regex_records. destruct (_find_all_quoted _) as [quotes|]; [|constructor].
  apply Forall_fmap. eapply Forall_impl; [apply (enumerate_index 1 quotes)|].
  intros q [Hq _]. unfold regex_shaped. cbn [Item.cmd Item.cmd_index_on_line Item.pattern_index_in_cmd].
  split_and!; [done|done|exact Hq].
Qed.

Lemma regex_records_indices (line : text) start (l : list (text * nat * nat)) :
  let items := concat ((fun kt : nat * (text * nat * nat) =>
                          regex_records line kt.1 kt.2.2) <$> enumerate start l) in
  Forall (fun it => Item.cmd it = "regex"%string
                    ∧ start ≤ Item.cmd_index_on_line it < start + length l
                    ∧ 1 ≤ Item.pattern_index_in_cmd it) items
  ∧ StronglySorted le (Item.cmd_index_on_line <$> items).
Proof.
  revert start. induction l as [|t l IH]; intros start; [split; constructor|].
  cbn zeta in *. rewrite enumerate_cons, fmap_cons. cbn [concat fst snd].
  destruct (IH (S start)) as [Hall Hs]. pose proof (regex_records_shape line start t.2) as Hsh.
  split.
  - apply Forall_app. split.
    + eapply Forall_impl; [exact Hsh|]. intros it (? & ? & ?). simpl. split_and!; try done; lia.
    + eapply Forall_impl; [exact Hall|]. intros it (? & ? & ?). simpl. split_and!; try done; lia.
  - rewrite fmap_app. induction Hsh as [|it its (_ & Hi & _) Hits IHs]; [done|].
    cbn. constructor; [done|]. apply Forall_app. split.
    + apply Forall_fmap. eapply Forall_impl; [exact Hits|]. intros it' (_ & Hi' & _). simpl. lia.
    + apply Forall_fmap. eapply Forall_impl; [exact Hall|]. intros it' (_ & Hi' & _). simpl. lia.
Qed.

(** X11: the records of [extract_from_regex] all have command regex, a
    command index between 1 and the number of regex tokens of the line and a
    pattern index of at least 1, and their command indices never decrease. *)
Theorem extract_from_regex_records (line : text) :
  ∃ items, extract_from_regex line = Ok items
    ∧ Forall (fun it => Item.cmd it = "regex"%string
                ∧ 1 ≤ Item.cmd_index_on_line it
                  ≤ length (filter is_regex_token (_iter_command_tokens line))
                ∧ 1 ≤ Item.pattern_index_in_cmd it) items
    ∧ StronglySorted le (Item.cmd_index_on_line <$> items).
Proof.
  eexists. split.
  { unfold extract_from_regex. rewrite regex_loop_spec; [|lia|lia|by left].
    rewrite regex_ends_tokens, enumerate_fmap, <- list_fmap_compose. reflexivity. }
  destruct (regex_records_indices line 1 (filter is_regex_token (_iter_command_tokens line)))
    as [Hall Hs].
  split; [|done]. eapply Forall_impl; [exact Hall|].
  intros it (? & ? & ?). split_and!; try done; lia.
Qed.

Lemma run_len_spec p (l : text) k :
  k < run_len p l → ∃ x, l !! k = Some x ∧ p x = true.
Proof.
  revert k. induction l as [|c l IH]; intros k; simpl; [lia|].
  destruct (p c) eqn:Hc; [|lia]. destruct k as [|k]; [eauto|].
  intros Hk. apply IH. lia.
Qed.

Lemma repeat_set_group ic neg cs lo (s : text) (st st' : mstate) (P : ascii → Prop) :
  (∀ x, set_has ic neg cs x = true → P x) →
  st' ∈ repeat_set ic neg cs lo s st →
  ∀ k, st.1 ≤ k < st'.1 → ∃ x, s !! k = Some x ∧ P x.
Proof.
  intros HP Hin k Hk. unfold repeat_set in Hin.
  apply list_elem_of_fmap in Hin as (j & -> & Hj).
  apply elem_of_reverse, elem_of_seq in Hj. simpl in Hk.
  destruct (run_len_spec (set_has ic neg cs) (drop st.1 s) (k - st.1)) as (x & Hx & Hpx); [lia|].
  rewrite lookup_drop_text in Hx. replace (st.1 + (k - st.1)) with k in Hx by lia. eauto.
Qed.

Lemma repeat_set_cap ic neg cs lo (s : text) (st st' : mstate) :
  st' ∈ repeat_set ic neg cs lo s st → st'.2 = st.2.
Proof.
  unfold repeat_set. intros Hin. by apply list_elem_of_fmap in Hin as (j & -> & _).
Qed.

Lemma exec_cap_within ic P r (s : text) (st st' : mstate) :
  groups_within ic P r → cap_within P s st → st' ∈ exec ic r s st → cap_within P s st'.
Proof.
  revert st st'.
  induction r as [|c|neg cs|r1 IH1 r2 IH2|r1 IH1 r2 IH2|r1 IH1| | |r1 IH1| | | |];
    intros st st' Hg Hc Hin; simpl in Hin.
  - by elem_cases Hin.
  - by elem_cases Hin.
  - by elem_cases Hin.
  - destruct Hg as [Hg1 Hg2]. apply list_elem_of_bind in Hin as (st1 & H2 & H1). eauto.
  - destruct Hg as [Hg1 Hg2]. apply elem_of_app in Hin as [H|H]; eauto.
  - apply elem_of_app in Hin as [H|H]; [eauto|]. by elem_cases H.
  - unfold cap_within. by rewrite (repeat_set_cap _ _ _ _ _ _ _ Hin).
  - unfold cap_within. by rewrite (repeat_set_cap _ _ _ _ _ _ _ Hin).
  - apply list_elem_of_fmap in Hin as (st1 & -> & H1). unfold cap_within. cbn [fst snd].
    destruct r1; try done; simpl in H1; intros k Hk;
      by eapply (repeat_set_group ic neg cs _ s st st1 P Hg H1).
  - by elem_cases Hin.
  - by elem_cases Hin.
  - by elem_cases Hin.
  - by elem_cases Hin.
Qed.

Lemma search_group1 ic P r (s : text) m :
  groups_within ic P r → search ic r s = Some m → Forall P (group1 s m).
Proof.
  intros Hg Hs. apply search_from_spec in Hs as [_ Hs].
  apply (exec_cap_within ic P) in Hs; [|done|done].
  unfold group1, cap_within in *. destruct m.2.2 as [[a b]|]; [|constructor].
  apply Forall_forall. intros x Hx. apply list_elem_of_lookup in Hx as [k Hk].
  apply slice_lookup_Some in Hk as [Hlt Hk].
  destruct (Hs (a + k)) as (y & Hy & HP); [lia|]. congruence.
Qed.

Lemma field_set_chars x :
  set_has true true [Space; Ch "="; Ch pipe] x = true → field_char x.
Proof.
  destruct x as [[] [] [] [] [] [] [] []]; intros H; try discriminate H;
    (split_and!; [reflexivity|discriminate|discriminate]).
Qed.

Lemma lead_set_chars x :
  set_has false false [Word; Ch "."; Ch "-"] x = true → field_char x.
Proof.
  destruct x as [[] [] [] [] [] [] [] []]; intros H; try discriminate H;
    (split_and!; [reflexivity|discriminate|discriminate]).
Qed.

(** X12: the field name resolved from the body of a regex command holds no
    whitespace, no equals sign and no pipe. *)
Theorem regex_field_chars (body : text) : Forall field_char (regex_field body).
Proof.
  unfold regex_field.
  destruct (search true FIELD_ASSIGN body) as [m|] eqn:Hm.
  { apply (search_group1 true field_char FIELD_ASSIGN body m); [|done].
    simpl. split_and!; try done. apply field_set_chars. }
  destruct (search false LEAD_ASSIGN body) as [m|] eqn:Hl; [|constructor].
  destruct (negb _); [|constructor].
  apply (search_group1 false field_char LEAD_ASSIGN body m); [|done].
  simpl. split_and!; try done. apply lead_set_chars.
Qed.

Lemma chr_has_equals ic c x : is_equals c = true → chr_has ic c x = true → is_equals x = true.
Proof.
  unfold is_equals. intros Hc. apply ascii_eqb_true in Hc. subst c.
  destruct ic; [|by intros ->%chr_has_exact].
  destruct x as [[] [] [] [] [] [] [] []]; intros H; (discriminate H || reflexivity).
Qed.

(** X13: when the body of a regex command holds no equals sign, the resolved
    field name is empty. *)
Theorem regex_field_needs_equals (body : text) :
  ("="%char ∉ body) → regex_field body = [].
Proof.
  intros Hno. unfold regex_field.
  assert (∀ ic r, must_contain is_equals r = true → search ic r body = None) as Hnone.
  { intros ic r Hr. destruct (search ic r body) as [m|] eqn:Hs; [|done]. exfalso.
    destruct (search_must_contain ic is_equals r body) as (c & Hc & He);
      [apply chr_has_equals|done|by rewrite Hs|].
    apply ascii_eqb_true in He. by subst c. }
  by rewrite (Hnone true FIELD_ASSIGN eq_refl), (Hnone false LEAD_ASSIGN eq_refl).
Qed.

Lemma regex_field_needs_equals_witness :
  ("="%char ∉ str " src") ∧ regex_field (str " src") = [].
Proof.
  assert (("="%char) ∉ str " src") as Hno.
  { intros H. repeat (apply elem_of_cons in H as [H|H]; [discriminate H|]).
    inversion H. }
  split; [exact Hno|]. exact (regex_field_needs_equals (str " src") Hno).
Defined.

Lemma analyze_file_both (f : list text) :
  ∃ totals, analyze_file f = Ok (rows_from 1 f, totals)
    ∧ analysis_ok f (rows_from 1 f, totals)
    ∧ Totals.lines totals = length (filter nonblank f)
    ∧ Totals.total_patterns totals = length (rows_from 1 f)
    ∧ Totals.rex_commands totals = length (filter is_rex_row (rows_from 1 f))
    ∧ Totals.regex_commands totals ≤ length (filter is_regex_row (rows_from 1 f))
    ∧ engines_bounded totals.
Proof.
  destruct (analyze_file_delta f) as (totals & H & Hrest).
  destruct (analyze_file_ok f) as (rows & totals' & H' & Hok).
  rewrite H in H'. injection H' as <- <-. by exists totals.
Qed.

(** C9: the analysis of a file always completes; its rows are the rows of
    the patterns extracted from the non-blank lines of the file, each
    flagged for an engine exactly when its pattern has a feature that
    offends the engine; and in its totals, for each engine, the
    incompatible-pattern count is the number of those rows flagged for the
    engine, the per-feature counts add up to the number of offending
    features over all those rows, hence to at least the
    incompatible-pattern count, with equality exactly when every flagged
    row has one offending feature. *)
Theorem feature_counts_cover_incompatible (f : list text) :
  ∃ totals,
    analyze_file f = Ok (rows_from 1 f, totals)
    ∧ Forall (fun r =>
        Row.java_incompatible r = (0 <? length (offending "java" (Row.pattern r)))
        ∧ Row.lucene_incompatible r = (0 <? length (offending "lucene" (Row.pattern r))))
        (rows_from 1 f)
    ∧ counts_cover "java" Row.java_incompatible
        (Totals.java_incompatible_patterns totals)
        (Totals.java_feature_counts totals) (rows_from 1 f)
    ∧ counts_cover "lucene" Row.lucene_incompatible
        (Totals.lucene_incompatible_patterns totals)
        (Totals.lucene_feature_counts totals) (rows_from 1 f).
Proof.
  destruct (analyze_file_both f) as (totals & H & (_ & Hj & Hl) & _).
  exists totals. cbn [fst snd] in Hj, Hl.
  split_and!; [done| |by apply counts_cover_of_ok..].
  destruct Hj as (_ & _ & Hfj). destruct Hl as (_ & _ & Hfl).
  rewrite Forall_forall in Hfj, Hfl. apply Forall_forall. intros r Hr. split; auto.
Qed.

(** X14: the rows of the analysis are, line after line in file order, the
    rows of each non-blank line, those of its rex records before those of its
    regex records; their line numbers lie between 1 and the number of lines
    and never decrease. *)
Theorem analyze_file_rows (f : list text) :
  ∃ totals, analyze_file f = Ok (rows_from 1 f, totals)
    ∧ Forall (fun r => 1 ≤ Row.line_number r ≤ length f) (rows_from 1 f)
    ∧ StronglySorted le (Row.line_number <$> rows_from 1 f).
Proof.
  destruct (analyze_file_both f) as (totals & H & _). exists totals.
  destruct (rows_from_numbers 1 f) as [Hb Hs]. split_and!; try done.
  eapply Forall_impl; [exact Hb|]. simpl. intros; lia.
Qed.

(** X15: in the totals, the line count is the number of non-blank lines, the
    pattern count is the number of rows, the rex command count is the number
    of rex rows, the regex command count is at most the number of regex rows,
    and the two command counts together do not exceed the pattern count. *)
Theorem analyze_file_counts (f : list text) :
  ∃ rows totals, analyze_file f = Ok (rows, totals)
    ∧ Totals.lines totals = length (filter nonblank f)
    ∧ Totals.total_patterns totals = length rows
    ∧ Totals.rex_commands totals = length (filter is_rex_row rows)
    ∧ Totals.regex_commands totals ≤ length (filter is_regex_row rows)
    ∧ Totals.rex_commands totals + Totals.regex_commands totals ≤ Totals.total_patterns totals.
Proof.
  destruct (analyze_file_both f) as (totals & H & _ & Hl & Htp & Hr & Hg & _).
  exists (rows_from 1 f), totals. split_and!; try done.
  rewrite Hr, Htp.
  assert (∀ rows : list Row.t,
            length (filter is_rex_row rows) + length (filter is_regex_row rows) ≤ length rows)
    as Hsplit.
  { induction rows as [|r rows IH]; [done|]. rewrite !filter_cons.
    destruct (decide (is_rex_row r)) as [Hc|];
      destruct (decide (is_regex_row r)) as [Hc'|]; simpl; try lia.
    unfold is_rex_row, is_regex_row in *. rewrite Hc in Hc'. discriminate. }
  specialize (Hsplit (rows_from 1 f)). lia.
Qed.

(** X16: a row flagged incompatible for java is flagged for lucene too, so
    the java incompatible-pattern count is at most the lucene one, which is
    at most the pattern count. *)
Theorem analyze_file_engine_order (f : list text) :
  ∃ rows totals, analyze_file f = Ok (rows, totals)
    ∧ Forall (fun r => Row.java_incompatible r = true → Row.lucene_incompatible r = true) rows
    ∧ Totals.java_incompatible_patterns totals ≤ Totals.lucene_incompatible_patterns totals
    ∧ Totals.lucene_incompatible_patterns totals ≤ Totals.total_patterns totals.
Proof.
  destruct (analyze_file_both f) as (totals & H & (_ & Hj & Hl) & _ & Htp & _).
  exists (rows_from 1 f), totals. cbn [fst snd] in *.
  destruct Hj as (_ & -> & _). destruct Hl as (_ & -> & _). rewrite Htp.
  pose proof (rows_from_flags 1 f) as Hflags. split_and!; try done.
  - by apply filter_length_mono.
  - apply sublist_length, sublist_filter.
Qed.

(** X17: every key of an engine's per-feature counters belongs to that
    engine's table, and its count is at least 1 and at most the engine's
    incompatible-pattern count. *)
Theorem analyze_file_feature_counts (f : list text) :
  ∃ rows totals, analyze_file f = Ok (rows, totals)
    ∧ counts_bounded JAVA_INCOMPATIBLE (Totals.java_incompatible_patterns totals)
        (Totals.java_feature_counts totals)
    ∧ counts_bounded LUCENE_INCOMPATIBLE (Totals.lucene_incompatible_patterns totals)
        (Totals.lucene_feature_counts totals).
Proof.
  destruct (analyze_file_both f) as (totals & H & _ & _ & _ & _ & _ & Hbj & Hbl).
  by exists (rows_from 1 f), totals.
Qed.

Lemma counts_bounded_zero table (counts : gmap string nat) :
  counts_bounded table 0 counts → counts = ∅.
Proof.
  intros Hb. apply map_empty. intros key.
  destruct (counts !! key) as [v|] eqn:Hv; [|done]. destruct (Hb key v Hv). lia.
Qed.

(** X18: a file whose lines are all empty or whitespace (the empty file
    included) gives no row and totals that are all zero, with empty
    per-feature counters. *)
Theorem analyze_file_blank_lines (f : list text) :
  Forall (fun raw => forallb isspace (rstrip newline raw) = true) f →
  analyze_file f = Ok ([], Totals.init).
Proof.
  intros Hblank.
  assert (Forall (fun raw => ¬ nonblank raw) f) as Hb.
  { eapply Forall_impl; [exact Hblank|]. unfold nonblank. intros raw ->. done. }
  destruct (analyze_file_blank f Hb) as [Hrows Hnb].
  destruct (analyze_file_both f) as (totals & H & (_ & Hj & Hl) & Hlines & Htp & Hr & Hg & Hbj & Hbl).
  rewrite H, Hrows. do 2 f_equal. rewrite Hrows, Hnb in *. cbn [fst snd] in *.
  destruct Hj as (_ & Hjc & _). destruct Hl as (_ & Hlc & _).
  rewrite filter_nil in *. cbn [length] in *.
  rewrite Hjc in Hbj. rewrite Hlc in Hbl.
  apply counts_bounded_zero in Hbj, Hbl.
  destruct totals. totals_simpl. subst. f_equal. lia.
Qed.

Lemma analyze_file_blank_lines_witness :
  Forall (fun raw => forallb isspace (rstrip newline raw) = true) [[newline]; str "  "]
  ∧ analyze_file [[newline]; str "  "] = Ok ([], Totals.init).
Proof.
  assert (Forall (fun raw => forallb isspace (rstrip newline raw) = true)
            [[newline]; str "  "]) as Hb by (repeat constructor).
  split; [exact Hb|]. exact (analyze_file_blank_lines _ Hb).
Defined.

(** X19: the exit status is 0, 1 or 2, and it is 2 exactly when the
    argument count is not one.  A run that ends with status 0 had one
    argument naming a readable file and wrote the CSV report, then the JSON
    report, then the summary.  A run whose argument count is wrong, or
    whose input does not exist or cannot be opened, writes no report: all
    it leaves is a message on the error stream or a traceback.  And the
    JSON report is never written without the CSV report before it. *)
Theorem main_reports_only_on_success (expanduser stem : string → string)
    (fs : gmap string entry) (can_write : string → bool) (argv : list string) :
  let run := main expanduser stem fs can_write argv in
  let path := expanduser (nth 1 argv ""%string) in
  (run.2 = 0 ∨ run.2 = 1 ∨ run.2 = 2)
  ∧ (run.2 = 2 ↔ length argv ≠ 2)
  ∧ (run.2 = 0 →
       length argv = 2
       ∧ ∃ f rows totals csv json,
           fs !! path = Some (Readable f)
           ∧ analyze_file f = Ok (rows, totals)
           ∧ run.1 = [CsvFile csv rows; JsonFile json totals;
                      Summary path rows totals; ReportNames csv json])
  ∧ (length argv ≠ 2 ∨ (∀ f, fs !! path ≠ Some (Readable f)) →
       ∃ ev, run.1 = [ev] ∧ ((∃ msg, ev = Stderr msg) ∨ ∃ e, ev = Traceback e))
  ∧ (∀ name totals, JsonFile name totals ∈ run.1 →
       ∃ csv rows rest, run.1 = CsvFile csv rows :: JsonFile name totals :: rest).
Proof.
  cbv zeta. unfold main.
  destruct (Nat.eqb_spec (length argv) 2) as [Hlen|Hlen]; cbn [negb].
  2:{ cbn [fst snd]. split_and!; [auto|done|done|eauto|].
      intros name totals H. apply list_elem_of_singleton in H. discriminate H. }
  destruct (fs !! expanduser (nth 1 argv ""%string)) as [[|f]|] eqn:Hfs.
  - cbn [fst snd]. split_and!; [auto|split; [discriminate|done]|discriminate|eauto|].
    intros name totals H. apply list_elem_of_singleton in H. discriminate H.
  - destruct (analyze_file_ok f) as (rows & totals & Hrun & _). rewrite Hrun.
    unfold write_reports.
    destruct (can_write _); [destruct (can_write _)|]; cbn [fst snd app].
    + split_and!; [auto|split; [discriminate|done]| | |].
      * intros _. split; [done|]. exists f, rows, totals. by do 2 eexists.
      * intros [?|Hno]; [done|]. by destruct (Hno f).
      * intros name t H. repeat (apply elem_of_cons in H as [H|H]; [try discriminate H|]).
        -- injection H as -> ->. by do 3 eexists.
        -- inversion H.
    + split_and!; [auto|split; [discriminate|done]|discriminate| |].
      * intros [?|Hno]; [done|]. by destruct (Hno f).
      * intros name t H. repeat (apply elem_of_cons in H as [H|H]; [discriminate H|]).
        inversion H.
    + split_and!; [auto|split; [discriminate|done]|discriminate| |].
      * intros [?|Hno]; [done|]. by destruct (Hno f).
      * intros name t H. apply list_elem_of_singleton in H. discriminate H.
  - cbn [fst snd]. split_and!; [auto|split; [discriminate|done]|discriminate|eauto|].
    intros name totals H. apply list_elem_of_singleton in H. discriminate H.
Qed.
